(** * direct_redis: the value codec and the client methods built on it

    A shallow embedding of [direct_redis/functions.py] and of the methods of
    [direct_redis/direct_redis.py] that the codec properties concern.

    Layout: Part I holds the definitions (data, effects, the embedded
    functions, reference instances of the external collaborators); Part II
    holds the theorems. *)

From Stdlib Require Import NArith ZArith List Bool Lia String Ascii.
From Stdlib.Strings Require Import Byte.
Import ListNotations.

Local Open Scope N_scope.

Ltac Zify.zify_post_hook ::= Z.to_euclidean_division_equations.

(* ################################################################# *)
(** * Part I: definitions *)

(* ================================================================= *)
(** ** Bytes and text *)

(** A Python [bytes] object. *)
Definition bytes := list byte.

(** A Python [str]: a sequence of code points.  Python strings may hold
    lone surrogates (U+D800..U+DFFF); they are code points like any other
    until the string is encoded. *)
Definition pystr := list N.

Definition byte_of_N (n : N) : byte :=
  match Byte.of_N n with
  | Some b => b
  | None => x00
  end.

Module Utf8.

(** [str.encode("utf-8")] on one code point, strict error handling:
    surrogates are refused ([UnicodeEncodeError]). *)
Definition encode_char (c : N) : option bytes :=
  if c <? 0x80 then
    Some [byte_of_N c]
  else if c <? 0x800 then
    Some [byte_of_N (0xC0 + c / 64); byte_of_N (0x80 + c mod 64)]
  else if c <? 0x10000 then
    if (0xD800 <=? c) && (c <=? 0xDFFF) then None
    else Some [byte_of_N (0xE0 + c / 4096);
               byte_of_N (0x80 + (c / 64) mod 64);
               byte_of_N (0x80 + c mod 64)]
  else if c <? 0x110000 then
    Some [byte_of_N (0xF0 + c / 262144);
          byte_of_N (0x80 + (c / 4096) mod 64);
          byte_of_N (0x80 + (c / 64) mod 64);
          byte_of_N (0x80 + c mod 64)]
  else None.

Fixpoint encode (s : pystr) : option bytes :=
  match s with
  | [] => Some []
  | c :: s' =>
      match encode_char c, encode s' with
      | Some e, Some r => Some (e ++ r)
      | _, _ => None
      end
  end.

(** A continuation byte, 10xxxxxx. *)
Definition is_cont (b : byte) : bool :=
  (0x80 <=? to_N b) && (to_N b <=? 0xBF).

Definition cont_bits (b : byte) : N := to_N b - 0x80.

(** The scalar value carried by a multi-byte sequence is accepted only
    in the range proper to its length (no overlong forms), outside the
    surrogate block and up to U+10FFFF. *)
Definition accept2 (c : N) : bool := 0x80 <=? c.
Definition accept3 (c : N) : bool :=
  (0x800 <=? c) && negb ((0xD800 <=? c) && (c <=? 0xDFFF)).
Definition accept4 (c : N) : bool := (0x10000 <=? c) && (c <? 0x110000).

(** [bytes.decode("utf-8")], strict error handling: [None] stands for
    [UnicodeDecodeError]. *)
Fixpoint decode (bs : bytes) : option pystr :=
  match bs with
  | [] => Some []
  | b0 :: r0 =>
      let n0 := to_N b0 in
      if n0 <? 0x80 then option_map (cons n0) (decode r0)
      else if n0 <? 0xC0 then None
      else if n0 <? 0xE0 then
        match r0 with
        | b1 :: r1 =>
            let c := (n0 - 0xC0) * 64 + cont_bits b1 in
            if is_cont b1 && accept2 c
            then option_map (cons c) (decode r1)
            else None
        | _ => None
        end
      else if n0 <? 0xF0 then
        match r0 with
        | b1 :: b2 :: r2 =>
            let c := (n0 - 0xE0) * 4096 + cont_bits b1 * 64 + cont_bits b2 in
            if is_cont b1 && is_cont b2 && accept3 c
            then option_map (cons c) (decode r2)
            else None
        | _ => None
        end
      else if n0 <? 0xF8 then
        match r0 with
        | b1 :: b2 :: b3 :: r3 =>
            let c := (n0 - 0xF0) * 262144 + cont_bits b1 * 4096
                     + cont_bits b2 * 64 + cont_bits b3 in
            if is_cont b1 && is_cont b2 && is_cont b3 && accept4 c
            then option_map (cons c) (decode r3)
            else None
        | _ => None
        end
      else None
  end.

End Utf8.

(** Text and byte literals for examples: the code points, respectively the
    bytes, of an ASCII literal. *)
Definition text (s : string) : pystr :=
  map N_of_ascii (list_ascii_of_string s).

Definition blit (s : string) : bytes := list_byte_of_string s.

(* ================================================================= *)
(** ** Python values *)

(** An insertion-ordered mapping, as a Python [dict] is: the items in
    order, keys pairwise distinct. *)
Definition dict (K V : Type) := list (K * V).

(** The values the codec is applied to.  Mapping keys are strings, as the
    annotations [Dict[str, Any]] of the client have them. *)
#[warnings="-register-all"]
Inductive pyval :=
| VNone
| VBool (b : bool)
| VInt (z : Z)
| VStr (s : pystr)
| VBytes (b : bytes)
| VList (l : list pyval)
| VDict (d : list (pystr * pyval)).

(** What [convert_set_type] hands to the store client: the string itself,
    or the pickled bytes. *)
Inductive redis_value :=
| RStr (s : pystr)
| RBytes (b : bytes).

Definition pystr_eq_dec : forall s t : pystr, {s = t} + {s <> t} :=
  list_eq_dec N.eq_dec.

Definition keys_of {K V} (d : dict K V) : list K := map fst d.

(** [d[k] = v]: an existing key keeps its position, a new key goes last. *)
Fixpoint dict_setitem {V} (k : pystr) (v : V) (d : dict pystr V) : dict pystr V :=
  match d with
  | [] => [(k, v)]
  | (k', v') :: d' =>
      if pystr_eq_dec k k' then (k', v) :: d'
      else (k', v') :: dict_setitem k v d'
  end.

(* ================================================================= *)
(** ** Exceptions, results and the effect monad *)

(** The exception classes that occur.  [PicklingError] and
    [UnpicklingError] are the subclasses of [pickle.PickleError]. *)
Inductive exn :=
| PickleError
| PicklingError
| UnpicklingError
| EOFError
| UnicodeDecodeError
| UnicodeEncodeError
| ValueError (msg : string)
| TypeError
| AttributeError
| KeyError
| IndexError
| StructError
| RedisError.

(** [except pickle.PickleError] *)
Definition is_PickleError (e : exn) : bool :=
  match e with
  | PickleError | PicklingError | UnpicklingError => true
  | _ => false
  end.

(** [except UnicodeDecodeError] *)
Definition is_UnicodeDecodeError (e : exn) : bool :=
  match e with
  | UnicodeDecodeError => true
  | _ => false
  end.

Inductive result (A : Type) :=
| Return (a : A)
| Raise (e : exn).
Arguments Return {A} a.
Arguments Raise {A} e.

Definition returns {A} (r : result A) : bool :=
  match r with Return _ => true | Raise _ => false end.

(** The calls made to the parent [Redis] class, with the arguments handed
    over. *)
Inductive command :=
| SuperKeys (pattern : pystr)
| SuperRandomkey
| SuperType (name : pystr)
| SuperMset (mapping : dict pystr redis_value)
| SuperHsetMapping (name : pystr) (mapping : dict pystr redis_value)
| SuperHset (name : pystr) (key : option pystr) (value : redis_value)
| SuperHmset (name : pystr) (mapping : dict pystr redis_value)
| SuperHgetall (name : pystr).

(** What a call does besides computing its value: the attempts at
    (de)serialisation and decoding, and the calls to the store, in order. *)
Inductive event :=
| PickleDumps (v : pyval)
| PickleLoads (b : bytes)
| Utf8Decode (b : bytes)
| StoreCall (c : command).

(** A computation: the events it performed and how it ended. *)
Record M (A : Type) := mkM { trace : list event; outcome : result A }.
Arguments mkM {A} trace outcome.
Arguments trace {A} m.
Arguments outcome {A} m.

Class Monad (m : Type -> Type) := {
  ret : forall {A}, A -> m A;
  bind : forall {A B}, m A -> (A -> m B) -> m B
}.

Notation "x <- c1 ;; c2" := (bind c1 (fun x => c2))
  (at level 61, c1 at next level, right associativity).
Notation "' pat <- c1 ;; c2" := (bind c1 (fun x => match x with pat => c2 end))
  (at level 61, pat pattern, c1 at next level, right associativity).

#[export] Instance result_monad : Monad result := {
  ret := fun A a => Return a;
  bind := fun A B r f =>
    match r with
    | Return a => f a
    | Raise e => Raise e
    end
}.

#[export] Instance M_monad : Monad M := {
  ret := fun A a => mkM [] (Return a);
  bind := fun A B m f =>
    match outcome m with
    | Return a => mkM (trace m ++ trace (f a)) (outcome (f a))
    | Raise e => mkM (trace m) (Raise e)
    end
}.

Definition raise {A} (e : exn) : M A := mkM [] (Raise e).

(** An external call: it is recorded, and ends as the callee does. *)
Definition perform {A} (ev : event) (r : result A) : M A := mkM [ev] r.

(** [try: body / except C: handler] where the [try] body ends in a
    [return]: an exception of class [C] runs the handler, any other one
    propagates. *)
Definition try_except {A} (body : M A) (C : exn -> bool) (handler : M A) : M A :=
  match outcome body with
  | Return a => body
  | Raise e =>
      if C e
      then mkM (trace body ++ trace handler) (outcome handler)
      else body
  end.

(** A list comprehension [[f(x) for x in xs]]. *)
Fixpoint list_comp {A B} (f : A -> M B) (xs : list A) : M (list B) :=
  match xs with
  | [] => ret []
  | x :: xs' =>
      y <- f x ;;
      ys <- list_comp f xs' ;;
      ret (y :: ys)
  end.

(** A dict comprehension [{k(x): v(x) for x in items}], the items taken
    in order, each one evaluated and then stored into the dict built so
    far. *)
Fixpoint dict_comp_from {A V} (f : A -> M (pystr * V)) (items : list A)
    (acc : dict pystr V) : M (dict pystr V) :=
  match items with
  | [] => ret acc
  | x :: items' =>
      kv <- f x ;;
      dict_comp_from f items' (dict_setitem (fst kv) (snd kv) acc)
  end.

Definition dict_comp {A V} (f : A -> M (pystr * V)) (items : list A)
    : M (dict pystr V) :=
  dict_comp_from f items [].

(* ================================================================= *)
(** ** The external collaborators *)

(** The [pickle] module: the generic serialiser.  [dumps] and [loads] end
    with a value or with an exception; [loads] may raise exceptions that
    are no [PickleError] ([EOFError], [ValueError], ...). *)
Class Pickle := {
  dumps : pyval -> result bytes;
  loads : bytes -> result pyval
}.

(** The parent class [redis.Redis]: for each call, how the store
    answers. *)
Record Redis := {
  redis_keys : pystr -> result (option (list bytes));
  redis_randomkey : result (option bytes);
  redis_type : pystr -> result (option bytes);
  redis_mset : dict pystr redis_value -> result bool;
  redis_hset_mapping : pystr -> dict pystr redis_value -> result Z;
  redis_hset : pystr -> option pystr -> redis_value -> result Z;
  redis_hmset : pystr -> dict pystr redis_value -> result bool;
  redis_hgetall : pystr -> result (dict bytes bytes)
}.

(** How the store client puts a value on the wire (its default encoder):
    bytes as they are, a string as its UTF-8 encoding. *)
Definition redis_encode (v : redis_value) : result bytes :=
  match v with
  | RBytes b => Return b
  | RStr s =>
      match Utf8.encode s with
      | Some b => Return b
      | None => Raise UnicodeEncodeError
      end
  end.

(* ================================================================= *)
(** ** functions.py *)

Section Functions.
Context {P : Pickle}.

(** [pickle.dumps(value)] *)
Definition pickle_dumps (value : pyval) : M bytes :=
  perform (PickleDumps value) (dumps value).

(** [pickle.loads(encoded)] *)
Definition pickle_loads (encoded : bytes) : M pyval :=
  perform (PickleLoads encoded) (loads encoded).

(** [encoded.decode("utf-8")] *)
Definition bytes_decode (encoded : bytes) : M pystr :=
  perform (Utf8Decode encoded)
    match Utf8.decode encoded with
    | Some s => Return s
    | None => Raise UnicodeDecodeError
    end.

Definition convert_set_type (value : pyval) : M redis_value :=
  match value with
  | VStr s => ret (RStr s)
  | _ => b <- pickle_dumps value ;; ret (RBytes b)
  end.

Definition convert_set_mapping_dic (dic : dict pystr pyval)
    : M (dict pystr redis_value) :=
  dict_comp (fun kv => e <- convert_set_type (snd kv) ;; ret (fst kv, e)) dic.

Definition convert_get_type (encoded : option bytes) (pickle_first : bool)
    : M pyval :=
  match encoded with
  | None => ret VNone
  | Some b =>
      (* lines 65-74: the text attempt, its handler and the last resort *)
      let text_then_rest : M pyval :=
        try_except
          (s <- bytes_decode b ;; ret (VStr s))
          is_UnicodeDecodeError
          (if negb pickle_first
           then try_except (pickle_loads b) is_PickleError (ret (VBytes b))
           else ret (VBytes b))
      in
      (* lines 59-63 *)
      if pickle_first
      then try_except (pickle_loads b) is_PickleError text_then_rest
      else text_then_rest
  end.

End Functions.

(** [isinstance(value, str)] *)
Definition is_str (v : pyval) : bool :=
  match v with VStr _ => true | _ => false end.

(** How a [try: return pickle.loads(b) / except pickle.PickleError] ends:
    with the loaded value, with [caught] after a [PickleError], with the
    exception otherwise. *)
Definition after_loads {P : Pickle} (b : bytes) (caught : result pyval)
    : result pyval :=
  match loads b with
  | Return v => Return v
  | Raise e => if is_PickleError e then caught else Raise e
  end.

(** The spec's [Encode]: the bytes that reach the store for a value. *)
Definition Encode {P : Pickle} (value : pyval) : result bytes :=
  e <- outcome (convert_set_type value) ;; redis_encode e.

(** The spec's [Decode], as a value or an exception. *)
Definition Decode {P : Pickle} (encoded : option bytes) (pickle_first : bool)
    : result pyval :=
  outcome (convert_get_type encoded pickle_first).

(** An item of a mapping and its encoded item: the key as it is, the
    value as [convert_set_type] returns it. *)
Definition encoded_item {P : Pickle} (kv : pystr * pyval)
    (kv' : pystr * redis_value) : Prop :=
  fst kv' = fst kv /\ outcome (convert_set_type (snd kv)) = Return (snd kv').

(** A stored hash field and its decoded field: the name decoded as UTF-8,
    the value as Decode returns it. *)
Definition decoded_field {P : Pickle} (pickle_first : bool) (kv : bytes * bytes)
    (kv' : pystr * pyval) : Prop :=
  Utf8.decode (fst kv) = Some (fst kv') /\
  Decode (Some (snd kv)) pickle_first = Return (snd kv').

(* ================================================================= *)
(** ** functions.py: the NumPy array codec *)

Module Np.

(** An element type: its type number ([dtype.num]), the size of one
    element ([dtype.itemsize]) and whether its byte order is the
    platform's ([dtype.isnative]). *)
Record np_dtype := {
  dt_num : N;
  dt_itemsize : N;
  dt_isnative : bool
}.

(** An array: element type, shape and the element bytes in C order, as
    [tobytes()] yields them. *)
Record ndarray := {
  dtype : np_dtype;
  shape : list N;
  data : bytes
}.

Definition size_of (shp : list N) : N := fold_right N.mul 1 shp.

(** The largest size in bytes NumPy accepts ([NPY_MAX_INTP], here of a
    64-bit platform), and the product it compares with it: that of the
    dimensions that are not 0. *)
Definition npy_max_intp : N := 9223372036854775807.

Definition nonzero_size (shp : list N) : N :=
  fold_right (fun d acc => if d =? 0 then acc else d * acc) 1 shp.

(** Whether NumPy can hold an array of that element type and shape. *)
Definition not_too_big (dt : np_dtype) (shp : list N) : bool :=
  dt_itemsize dt * nonzero_size shp <=? npy_max_intp.

(** The bytes of a well-formed array are those of its elements, and its
    shape is one NumPy can hold. *)
Definition well_formed (a : ndarray) : Prop :=
  N.of_nat (List.length (data a)) = dt_itemsize (dtype a) * size_of (shape a) /\
  not_too_big (dtype a) (shape a) = true.

Definition tobytes (a : ndarray) : bytes := data a.

(** One field of format [">I"]: four bytes, most significant first. *)
Definition u32_be (n : N) : bytes :=
  [byte_of_N (n / 16777216);
   byte_of_N ((n / 65536) mod 256);
   byte_of_N ((n / 256) mod 256);
   byte_of_N (n mod 256)].

Definition u32_of_be (b0 b1 b2 b3 : byte) : N :=
  to_N b0 * 16777216 + to_N b1 * 65536 + to_N b2 * 256 + to_N b3.

Definition fits_u32 (n : N) : bool := n <? 4294967296.

(** [struct.pack(">IIII", a, b, c, d)]: [struct.error] when a field is
    out of range. *)
Definition struct_pack_IIII (a b c d : N) : result bytes :=
  if fits_u32 a && fits_u32 b && fits_u32 c && fits_u32 d
  then Return (u32_be a ++ u32_be b ++ u32_be c ++ u32_be d)
  else Raise StructError.

(** [struct.unpack(">IIII", buf)]: [struct.error] unless [buf] holds
    exactly 16 bytes. *)
Definition struct_unpack_IIII (buf : bytes) : result (N * N * N * N) :=
  match buf with
  | [a0; a1; a2; a3; b0; b1; b2; b3; c0; c1; c2; c3; d0; d1; d2; d3] =>
      Return (u32_of_be a0 a1 a2 a3, u32_of_be b0 b1 b2 b3,
              u32_of_be c0 c1 c2 c3, u32_of_be d0 d1 d2 d3)
  | _ => Raise StructError
  end.

(** [np.frombuffer(buffer, dtype=dt, offset=offset)]: a one-dimensional
    array over the bytes after [offset]. *)
Definition frombuffer (buffer : bytes) (offset : nat) (dt : np_dtype)
    : result ndarray :=
  if (List.length buffer <? offset)%nat then
    Raise (ValueError "offset must be non-negative and no greater than buffer length")
  else if dt_itemsize dt =? 0 then
    Raise (ValueError "itemsize cannot be zero in type")
  else
    let s := N.of_nat (List.length buffer - offset) in
    if s mod dt_itemsize dt =? 0 then
      Return {| dtype := dt;
                shape := [s / dt_itemsize dt];
                data := skipn offset buffer |}
    else Raise (ValueError "buffer size must be a multiple of element size").

(** [a.reshape(shp)]: the number of elements must be the same, and the
    new shape one NumPy can hold. *)
Definition reshape (a : ndarray) (shp : list N) : result ndarray :=
  if size_of shp =? size_of (shape a) then
    if not_too_big (dtype a) shp
    then Return {| dtype := dtype a; shape := shp; data := data a |}
    else Raise (ValueError "array is too big")
  else Raise (ValueError "cannot reshape array").

(** The shapes in which no dimension after the first used one is 0:
    [(n,)], [(n, m)] with [m] not 0, [(n, m, p)] with [p] not 0. *)
Definition trailing_dim_nonzero (shp : list N) : Prop :=
  match shp with
  | [_] => True
  | [_; m] => m <> 0
  | [_; _; p] => p <> 0
  | _ => False
  end.

(** The header fields for a shape. *)
Definition header_dims (shp : list N) : N * N * N :=
  match shp with
  | [s0] => (s0, 0, 0)
  | [s0; s1] => (s0, s1, 0)
  | [s0; s1; s2] => (s0, s1, s2)
  | _ => (0, 0, 0)
  end.

Section Codec.
(** [np.typeDict]: the scalar type registered under a type number, a
    table of the NumPy installation; the types in it are native. *)
Variable typeDict : N -> option np_dtype.

Definition typeDict_getitem (num : N) : result np_dtype :=
  match typeDict num with
  | Some dt => Return dt
  | None => Raise KeyError
  end.

Definition serialize_np (np_array : ndarray) : result bytes :=
  ' (d1, d2, d3) <-
    match shape np_array with
    | [s0] => Return (s0, 0, 0)
    | [s0; s1] => Return (s0, s1, 0)
    | [s0; s1; s2] => Return (s0, s1, s2)
    | _ => Raise (ValueError "Redis can only store 1D, 2D, and 3D NumPy arrays.")
    end ;;
  let dtype := dt_num (dtype np_array) in
  packed_data <- struct_pack_IIII dtype d1 d2 d3 ;;
  Return (packed_data ++ tobytes np_array).

Definition unserialize_np (encoded : bytes) : result ndarray :=
  ' (dtype, d1, d2, d3) <- struct_unpack_IIII (firstn 16 encoded) ;;
  dt <- typeDict_getitem dtype ;;
  np_array <- frombuffer encoded 16 dt ;;
  if negb (d3 =? 0) then reshape np_array [d1; d2; d3]
  else if negb (d2 =? 0) then reshape np_array [d1; d2]
  else Return np_array.

End Codec.

End Np.

(* ================================================================= *)
(** ** direct_redis.py: class DirectRedis *)

Section DirectRedis.
Context {P : Pickle}.
Variable R : Redis.

(** [super().cmd(...)] *)
Definition super {A} (c : command) (answer : result A) : M A :=
  perform (StoreCall c) answer.

(** [encoded or []] *)
Definition or_empty {A} (encoded : option (list A)) : list A :=
  match encoded with
  | Some l => l
  | None => []
  end.

Definition keys (pattern : pystr) : M (list pyval) :=
  encoded <- super (SuperKeys pattern) (redis_keys R pattern) ;;
  list_comp (fun key => convert_get_type (Some key) false) (or_empty encoded).

Definition randomkey : M pyval :=
  encoded <- super SuperRandomkey (redis_randomkey R) ;;
  convert_get_type encoded false.

Definition type (name : pystr) : M pyval :=
  encoded <- super (SuperType name) (redis_type R name) ;;
  convert_get_type encoded false.

Definition mset (mapping : pyval) : M bool :=
  match mapping with
  | VDict d =>
      mapping' <- convert_set_mapping_dic d ;;
      super (SuperMset mapping') (redis_mset R mapping')
  | _ => raise (ValueError "mapping must be a python dictionary")
  end.

(** [if mapping:] a mapping that is given and not empty. *)
Definition truthy {A} (mapping : option (list A)) : bool :=
  match mapping with
  | Some (_ :: _) => true
  | _ => false
  end.

Definition hset (name : pystr) (key : option pystr) (value : pyval)
    (mapping : option (dict pystr pyval)) : M Z :=
  if truthy mapping then
    mapping' <- convert_set_mapping_dic (or_empty mapping) ;;
    super (SuperHsetMapping name mapping') (redis_hset_mapping R name mapping')
  else
    value' <- convert_set_type value ;;
    super (SuperHset name key value') (redis_hset R name key value').

Definition hmset (name : pystr) (mapping : pyval) : M bool :=
  match mapping with
  | VDict d =>
      mapping' <- convert_set_mapping_dic d ;;
      super (SuperHmset name mapping') (redis_hmset R name mapping')
  | _ => raise (ValueError "mapping must be a python dictionary")
  end.

(** The key of an item is evaluated before its value. *)
Definition hgetall (name : pystr) (pickle_first : bool) : M (dict pystr pyval) :=
  encoded <- super (SuperHgetall name) (redis_hgetall R name) ;;
  dict_comp
    (fun kv =>
       k <- bytes_decode (fst kv) ;;
       v <- convert_get_type (Some (snd kv)) pickle_first ;;
       ret (k, v))
    encoded.

End DirectRedis.

(* ================================================================= *)
(** ** Reference instances of the collaborators *)

(** A serialiser for scalars speaking the pickle wire format (protocol 4):
    the opcodes PROTO, NONE, NEWTRUE, NEWFALSE, BININT1 and STOP, with the
    error behaviour of CPython's unpickler on them.  Bytes outside this
    opcode set are refused as invalid load keys, values outside the
    scalars are refused by [dumps]. *)
Module MiniPickle.

Definition PROTO : byte := x80.
Definition NONE : byte := "N".
Definition NEWTRUE : byte := x88.
Definition NEWFALSE : byte := x89.
Definition BININT1 : byte := "K".
Definition STOP : byte := ".".

Definition HIGHEST_PROTOCOL : N := 5.
Definition DEFAULT_PROTOCOL : N := 4.

(** The unpickling loop.  Running out of input where an opcode is
    expected is [EOFError]; a missing operand or an empty stack at STOP
    is [UnpicklingError]; a protocol number above the highest one is
    [ValueError]. *)
Fixpoint load (stack : list pyval) (input : bytes) : result pyval :=
  match input with
  | [] => Raise EOFError
  | op :: rest =>
      match op with
      | "."%byte =>
          match stack with
          | v :: _ => Return v
          | [] => Raise UnpicklingError
          end
      | "N"%byte => load (VNone :: stack) rest
      | x88 => load (VBool true :: stack) rest
      | x89 => load (VBool false :: stack) rest
      | "K"%byte =>
          match rest with
          | a :: rest' => load (VInt (Z.of_N (to_N a)) :: stack) rest'
          | [] => Raise UnpicklingError
          end
      | x80 =>
          match rest with
          | v :: rest' =>
              if to_N v <=? HIGHEST_PROTOCOL then load stack rest'
              else Raise (ValueError "unsupported pickle protocol")
          | [] => Raise UnpicklingError
          end
      | _ => Raise UnpicklingError
      end
  end.

Definition header : bytes := [PROTO; byte_of_N DEFAULT_PROTOCOL].

Definition dump (v : pyval) : result bytes :=
  match v with
  | VNone => Return (header ++ [NONE; STOP])
  | VBool true => Return (header ++ [NEWTRUE; STOP])
  | VBool false => Return (header ++ [NEWFALSE; STOP])
  | VInt z =>
      if ((0 <=? z) && (z <? 256))%Z
      then Return (header ++ [BININT1; byte_of_N (Z.to_N z); STOP])
      else Raise PicklingError
  | _ => Raise PicklingError
  end.

#[export] Instance pickle : Pickle := {
  dumps := dump;
  loads := load []
}.

End MiniPickle.

(** A store client that gives the same answer to every read and accepts
    every write. *)
Definition fixed_redis (k : option bytes) (h : dict bytes bytes) : Redis := {|
  redis_keys := fun _ =>
    Return (match k with Some b => Some [b] | None => None end);
  redis_randomkey := Return k;
  redis_type := fun _ => Return k;
  redis_mset := fun _ => Return true;
  redis_hset_mapping := fun _ m => Return (Z.of_nat (List.length m));
  redis_hset := fun _ _ _ => Return 1%Z;
  redis_hmset := fun _ _ => Return true;
  redis_hgetall := fun _ => Return h
|}.

(** The fixed-size entries of [np.typeDict]. *)
Definition sample_typeDict (num : N) : option Np.np_dtype :=
  let reg sz := Some {| Np.dt_num := num; Np.dt_itemsize := sz;
                        Np.dt_isnative := true |} in
  match num with
  | 0 => reg 1           (* bool *)
  | 1 => reg 1           (* int8 *)
  | 2 => reg 1           (* uint8 *)
  | 3 => reg 2           (* int16 *)
  | 4 => reg 2           (* uint16 *)
  | 11 => reg 4          (* float32 *)
  | 12 => reg 8          (* float64 *)
  | 14 => reg 8          (* complex64 *)
  | 15 => reg 16         (* complex128 *)
  | 23 => reg 2          (* float16 *)
  | _ => None
  end.

Definition float64 : Np.np_dtype :=
  {| Np.dt_num := 12; Np.dt_itemsize := 8; Np.dt_isnative := true |}.

Definition uint8 : Np.np_dtype :=
  {| Np.dt_num := 2; Np.dt_itemsize := 1; Np.dt_isnative := true |}.

(* ================================================================= *)
(** ** direct_redis.py: the other methods of DirectRedis *)

(** What the store answers to a pop or to srandmember: one member (or
    nothing), or a list of members when a count was given. *)
Inductive pop_reply :=
| One (encoded : option bytes)
| Many (encoded : list bytes).

(** The calls these methods make to the parent class, with the arguments
    handed over. *)
Inductive call :=
| SuperSet (name : pystr) (value : redis_value) (ex px : option Z) (nx xx : bool)
| SuperGet (name : pystr)
| SuperMget (names : list pystr)
| SuperHkeys (name : pystr)
| SuperHget (name key : pystr)
| SuperHmget (name : pystr) (keys : list pystr)
| SuperHvals (name : pystr)
| SuperSadd (name : pystr) (values : list redis_value)
| SuperSrem (name : pystr) (values : list redis_value)
| SuperSismember (name : pystr) (value : redis_value)
| SuperSmembers (name : pystr)
| SuperSpop (name : pystr) (count : option Z)
| SuperSrandmember (name : pystr) (number : option Z)
| SuperSdiff (keys args : list pystr)
| SuperLpush (name : pystr) (values : list redis_value)
| SuperLpushx (name : pystr) (value : redis_value)
| SuperRpushx (name : pystr) (value : redis_value)
| SuperRpush (name : pystr) (values : list redis_value)
| SuperLpop (name : pystr) (count : option Z)
| SuperRpop (name : pystr) (count : option Z)
| SuperLindex (name : pystr) (index : Z)
| SuperLrange (name : pystr) (start end_ : Z).

(** For each of these calls, how the store answers. *)
Record RedisRest := {
  redis_set : pystr -> redis_value -> option Z -> option Z -> bool -> bool
              -> result (option bool);
  redis_get : pystr -> result (option bytes);
  redis_mget : list pystr -> result (option (list (option bytes)));
  redis_hkeys : pystr -> result (option (list bytes));
  redis_hget : pystr -> pystr -> result (option bytes);
  redis_hmget : pystr -> list pystr -> result (option (list (option bytes)));
  redis_hvals : pystr -> result (option (list bytes));
  redis_sadd : pystr -> list redis_value -> result Z;
  redis_srem : pystr -> list redis_value -> result Z;
  redis_sismember : pystr -> redis_value -> result bool;
  redis_smembers : pystr -> result (option (list bytes));
  redis_spop : pystr -> option Z -> result pop_reply;
  redis_srandmember : pystr -> option Z -> result pop_reply;
  redis_sdiff : list pystr -> list pystr -> result (option (list bytes));
  redis_lpush : pystr -> list redis_value -> result Z;
  redis_lpushx : pystr -> redis_value -> result Z;
  redis_rpushx : pystr -> redis_value -> result Z;
  redis_rpush : pystr -> list redis_value -> result Z;
  redis_lpop : pystr -> option Z -> result pop_reply;
  redis_rpop : pystr -> option Z -> result pop_reply;
  redis_lindex : pystr -> Z -> result (option bytes);
  redis_lrange : pystr -> Z -> Z -> result (option (list bytes))
}.

(** A step of one of these methods: an event of the codec, or a call to
    the parent class. *)
Inductive step :=
| Codec (e : event)
| Forwarded (c : call).

(** A run of one of these methods: its steps and how it ended. *)
Record Op (A : Type) := mkOp { steps : list step; ended : result A }.
Arguments mkOp {A} steps ended.
Arguments steps {A} o.
Arguments ended {A} o.

#[export] Instance Op_monad : Monad Op := {
  ret := fun A a => mkOp [] (Return a);
  bind := fun A B m f =>
    match ended m with
    | Return a => mkOp (steps m ++ steps (f a)) (ended (f a))
    | Raise e => mkOp (steps m) (Raise e)
    end
}.

(** A computation of functions.py run inside a method. *)
Definition codec {A} (m : M A) : Op A :=
  mkOp (map Codec (trace m)) (outcome m).

(** [super().cmd(...)] *)
Definition forward {A} (c : call) (answer : result A) : Op A :=
  mkOp [Forwarded c] answer.

(** Hashing.  [None], booleans, integers, strings and bytes are hashable,
    lists and dicts are not; [True == 1] and [False == 0], with equal
    hashes. *)
Inductive hkey :=
| KNone
| KInt (z : Z)
| KStr (s : pystr)
| KBytes (b : bytes).

Definition hash_key (v : pyval) : option hkey :=
  match v with
  | VNone => Some KNone
  | VBool b => Some (KInt (if b then 1 else 0))
  | VInt z => Some (KInt z)
  | VStr s => Some (KStr s)
  | VBytes b => Some (KBytes b)
  | VList _ | VDict _ => None
  end.

Definition hashable (v : pyval) : bool :=
  match hash_key v with Some _ => true | None => false end.

Definition hkey_eq_dec (a b : hkey) : {a = b} + {a <> b}.
Proof.
  decide equality.
  - apply Z.eq_dec.
  - apply pystr_eq_dec.
  - apply (list_eq_dec byte_eq_dec).
Defined.

(** [x == y] on hashable values. *)
Definition py_eqb (x y : pyval) : bool :=
  match hash_key x, hash_key y with
  | Some a, Some b => if hkey_eq_dec a b then true else false
  | _, _ => false
  end.

(** A Python [set], as the list of its members (the order carries no
    meaning).  [s.add(x)] keeps the member already there. *)
Definition set_add (x : pyval) (s : list pyval) : list pyval :=
  if existsb (py_eqb x) s then s else s ++ [x].

(** A set comprehension [{f(x) for x in xs}]: each element is evaluated
    and added; adding an unhashable value is a [TypeError]. *)
Fixpoint set_comp_from {A} (f : A -> M pyval) (xs : list A) (acc : list pyval)
    : M (list pyval) :=
  match xs with
  | [] => ret acc
  | x :: xs' =>
      v <- f x ;;
      if hashable v then set_comp_from f xs' (set_add v acc)
      else raise TypeError
  end.

Definition set_comp {A} (f : A -> M pyval) (xs : list A) : M (list pyval) :=
  set_comp_from f xs [].

Section DirectRedisRest.
Context {P : Pickle}.
Variable R : RedisRest.

Definition set (name : pystr) (value : pyval) (ex px : option Z) (nx xx : bool)
    : Op (option bool) :=
  value' <- codec (convert_set_type value) ;;
  forward (SuperSet name value' ex px nx xx) (redis_set R name value' ex px nx xx).

Definition get (name : pystr) (pickle_first : bool) : Op pyval :=
  encoded <- forward (SuperGet name) (redis_get R name) ;;
  codec (convert_get_type encoded pickle_first).

Definition mget (names : list pystr) (pickle_first : bool) : Op (list pyval) :=
  encoded <- forward (SuperMget names) (redis_mget R names) ;;
  codec (list_comp (fun value => convert_get_type value pickle_first)
           (or_empty encoded)).

Definition hkeys (name : pystr) : Op (list pyval) :=
  encoded <- forward (SuperHkeys name) (redis_hkeys R name) ;;
  codec (list_comp (fun key => convert_get_type (Some key) false)
           (or_empty encoded)).

Definition hget (name key : pystr) (pickle_first : bool) : Op pyval :=
  encoded <- forward (SuperHget name key) (redis_hget R name key) ;;
  codec (convert_get_type encoded pickle_first).

Definition hmget (name : pystr) (keys : list pystr) (pickle_first : bool)
    : Op (list pyval) :=
  encoded <- forward (SuperHmget name keys) (redis_hmget R name keys) ;;
  codec (list_comp (fun value => convert_get_type value pickle_first)
           (or_empty encoded)).

Definition hvals (name : pystr) (pickle_first : bool) : Op (list pyval) :=
  encoded <- forward (SuperHvals name) (redis_hvals R name) ;;
  codec (list_comp (fun value => convert_get_type (Some value) pickle_first)
           (or_empty encoded)).

Definition sadd (name : pystr) (values : list pyval) : Op Z :=
  encoded <- codec (list_comp convert_set_type values) ;;
  forward (SuperSadd name encoded) (redis_sadd R name encoded).

Definition srem (name : pystr) (values : list pyval) : Op Z :=
  encoded <- codec (list_comp convert_set_type values) ;;
  forward (SuperSrem name encoded) (redis_srem R name encoded).

Definition sismember (name : pystr) (value : pyval) : Op bool :=
  encoded <- codec (convert_set_type value) ;;
  forward (SuperSismember name encoded) (redis_sismember R name encoded).

Definition smembers (name : pystr) (pickle_first : bool) : Op (list pyval) :=
  encoded <- forward (SuperSmembers name) (redis_smembers R name) ;;
  codec (set_comp (fun value => convert_get_type (Some value) pickle_first)
           (or_empty encoded)).

(** [isinstance(encoded, list)] decides between a list of decoded values
    and one decoded value. *)
Definition spop (name : pystr) (count : option Z) (pickle_first : bool)
    : Op pyval :=
  encoded <- forward (SuperSpop name count) (redis_spop R name count) ;;
  match encoded with
  | Many l =>
      vs <- codec (list_comp
                     (fun value => convert_get_type (Some value) pickle_first) l) ;;
      ret (VList vs)
  | One e => codec (convert_get_type e pickle_first)
  end.

Definition srandmember (name : pystr) (number : option Z) (pickle_first : bool)
    : Op pyval :=
  encoded <- forward (SuperSrandmember name number)
               (redis_srandmember R name number) ;;
  match encoded with
  | Many l =>
      vs <- codec (list_comp
                     (fun value => convert_get_type (Some value) pickle_first)
                     (or_empty (Some l))) ;;
      ret (VList vs)
  | One e => codec (convert_get_type e pickle_first)
  end.

Definition sdiff (keys args : list pystr) : Op (list pyval) :=
  encoded <- forward (SuperSdiff keys args) (redis_sdiff R keys args) ;;
  codec (set_comp (fun value => convert_get_type (Some value) false)
           (or_empty encoded)).

Definition lpush (name : pystr) (values : list pyval) : Op Z :=
  encoded <- codec (list_comp convert_set_type values) ;;
  forward (SuperLpush name encoded) (redis_lpush R name encoded).

Definition lpushx (name : pystr) (value : pyval) : Op Z :=
  value' <- codec (convert_set_type value) ;;
  forward (SuperLpushx name value') (redis_lpushx R name value').

Definition rpushx (name : pystr) (value : pyval) : Op Z :=
  value' <- codec (convert_set_type value) ;;
  forward (SuperRpushx name value') (redis_rpushx R name value').

Definition rpush (name : pystr) (values : list pyval) : Op Z :=
  encoded <- codec (list_comp convert_set_type values) ;;
  forward (SuperRpush name encoded) (redis_rpush R name encoded).

Definition lpop (name : pystr) (count : option Z) (pickle_first : bool)
    : Op pyval :=
  encoded <- forward (SuperLpop name count) (redis_lpop R name count) ;;
  match encoded with
  | Many l =>
      vs <- codec (list_comp
                     (fun value => convert_get_type (Some value) pickle_first) l) ;;
      ret (VList vs)
  | One e => codec (convert_get_type e pickle_first)
  end.

Definition rpop (name : pystr) (count : option Z) (pickle_first : bool)
    : Op pyval :=
  encoded <- forward (SuperRpop name count) (redis_rpop R name count) ;;
  match encoded with
  | Many l =>
      vs <- codec (list_comp
                     (fun value => convert_get_type (Some value) pickle_first) l) ;;
      ret (VList vs)
  | One e => codec (convert_get_type e pickle_first)
  end.

Definition lindex (name : pystr) (index : Z) (pickle_first : bool) : Op pyval :=
  encoded <- forward (SuperLindex name index) (redis_lindex R name index) ;;
  codec (convert_get_type encoded pickle_first).

Definition lrange (name : pystr) (start end_ : Z) (pickle_first : bool)
    : Op (list pyval) :=
  encoded <- forward (SuperLrange name start end_)
               (redis_lrange R name start end_) ;;
  codec (list_comp (fun value => convert_get_type (Some value) pickle_first)
           (or_empty encoded)).

End DirectRedisRest.

(* ================================================================= *)
(** ** Example data *)

(** [pickle.dumps(None)], protocol 4. *)
Definition pickled_none : bytes := [x80; x04; x4e; x2e].

(** [pickle.dumps(42)], protocol 4. *)
Definition pickled_42 : bytes := [x80; x04; x4b; x2a; x2e].

(** A store whose key is the pickle of [None]. *)
Definition binary_key_redis : Redis := fixed_redis (Some pickled_none) [].

Definition mixed_mapping : dict pystr pyval :=
  [(text "a", VStr (text "x")); (text "b", VInt 7)].

(** A hash whose second field name is the byte 0xFF. *)
Definition hash_with_binary_name : dict bytes bytes :=
  [(blit "ok", blit "v"); ([xff], blit "w")].

(** [np.arange(1, 7, dtype=np.uint8).reshape(2, 3)] *)
Definition array_2x3 : Np.ndarray :=
  {| Np.dtype := uint8; Np.shape := [2; 3];
     Np.data := [x01; x02; x03; x04; x05; x06] |}.

(** [np.zeros((2, 0))] *)
Definition array_2x0 : Np.ndarray :=
  {| Np.dtype := float64; Np.shape := [2; 0]; Np.data := [] |}.

(** [np.zeros((2, 3, 0))] *)
Definition array_2x3x0 : Np.ndarray :=
  {| Np.dtype := float64; Np.shape := [2; 3; 0]; Np.data := [] |}.

(** The header of [array_2x0]: the fields 12, 2, 0, 0. *)
Definition header_2x0 : bytes :=
  [x00; x00; x00; x0c; x00; x00; x00; x02;
   x00; x00; x00; x00; x00; x00; x00; x00].

(** A store client for the other methods that gives the same answers to
    every read and accepts every write: [one] to the single reads,
    [row] to mget and hmget, [members] to the listings, and to a pop
    [one] without a count and [members] with one. *)
Definition fixed_rest (one : option bytes) (row : list (option bytes))
    (members : list bytes) : RedisRest := {|
  redis_set := fun _ _ _ _ _ _ => Return (Some true);
  redis_get := fun _ => Return one;
  redis_mget := fun _ => Return (Some row);
  redis_hkeys := fun _ => Return (Some members);
  redis_hget := fun _ _ => Return one;
  redis_hmget := fun _ _ => Return (Some row);
  redis_hvals := fun _ => Return (Some members);
  redis_sadd := fun _ vs => Return (Z.of_nat (List.length vs));
  redis_srem := fun _ vs => Return (Z.of_nat (List.length vs));
  redis_sismember := fun _ _ => Return true;
  redis_smembers := fun _ => Return (Some members);
  redis_spop := fun _ count =>
    Return (match count with None => One one | Some _ => Many members end);
  redis_srandmember := fun _ count =>
    Return (match count with None => One one | Some _ => Many members end);
  redis_sdiff := fun _ _ => Return (Some members);
  redis_lpush := fun _ vs => Return (Z.of_nat (List.length vs));
  redis_lpushx := fun _ _ => Return 1%Z;
  redis_rpushx := fun _ _ => Return 1%Z;
  redis_rpush := fun _ vs => Return (Z.of_nat (List.length vs));
  redis_lpop := fun _ count =>
    Return (match count with None => One one | Some _ => Many members end);
  redis_rpop := fun _ count =>
    Return (match count with None => One one | Some _ => Many members end);
  redis_lindex := fun _ _ => Return one;
  redis_lrange := fun _ _ _ => Return (Some members)
|}.

(** A mapping whose second value cannot be pickled by [MiniPickle]. *)
Definition mapping_with_list : dict pystr pyval :=
  [(text "a", VStr (text "x")); (text "b", VList [])].

(** What a pop returns for an answer of the store: Decode of the one
    member, or the list of Decode of each member. *)
Definition popped {P : Pickle} (pickle_first : bool) (reply : pop_reply)
    (v : pyval) : Prop :=
  match reply with
  | One e => Decode e pickle_first = Return v
  | Many l =>
      exists vs,
        v = VList vs /\
        Forall2 (fun b x => Decode (Some b) pickle_first = Return x) l vs
  end.

(** A serialiser for [None] and the empty list speaking the pickle wire
    format (protocol 4): the opcodes PROTO, NONE, EMPTY_LIST, MEMOIZE and
    STOP.  [pickle.dumps([])] is [b"\x80\x04]\x94."]. *)
Module ListPickle.

Fixpoint load (stack : list pyval) (input : bytes) : result pyval :=
  match input with
  | [] => Raise EOFError
  | op :: rest =>
      match op with
      | "."%byte =>
          match stack with
          | v :: _ => Return v
          | [] => Raise UnpicklingError
          end
      | "N"%byte => load (VNone :: stack) rest
      | "]"%byte => load (VList [] :: stack) rest
      | x94 =>
          match stack with
          | _ :: _ => load stack rest
          | [] => Raise UnpicklingError
          end
      | x80 =>
          match rest with
          | v :: rest' =>
              if to_N v <=? 5 then load stack rest'
              else Raise (ValueError "unsupported pickle protocol")
          | [] => Raise UnpicklingError
          end
      | _ => Raise UnpicklingError
      end
  end.

Definition dump (v : pyval) : result bytes :=
  match v with
  | VNone => Return [x80; x04; x4e; x2e]
  | VList [] => Return [x80; x04; x5d; x94; x2e]
  | _ => Raise PicklingError
  end.

#[export] Instance pickle : Pickle := {
  dumps := dump;
  loads := load []
}.

End ListPickle.

(** [pickle.dumps([])], protocol 4. *)
Definition pickled_empty_list : bytes := [x80; x04; x5d; x94; x2e].

(** The invariant of a set: its members are hashable and pairwise
    unequal. *)
Definition is_pyset (s : list pyval) : Prop :=
  NoDup (map hash_key s) /\ Forall (fun v => hashable v = true) s.

(** [vs] is the set of Decode of the members: every element is Decode of
    a member, and Decode of every member is equal to an element. *)
Definition set_of_decoded {P : Pickle} (pickle_first : bool)
    (members : list bytes) (vs : list pyval) : Prop :=
  is_pyset vs /\
  (forall v, In v vs ->
             exists b, In b members /\ Decode (Some b) pickle_first = Return v) /\
  (forall b, In b members ->
             exists v' v, Decode (Some b) pickle_first = Return v' /\
                          In v vs /\ hash_key v = hash_key v') /\
  (List.length vs <= List.length members)%nat.

(** The 16 bytes that serialize_np puts before the element bytes. *)
Definition np_header (t d1 d2 d3 : N) : bytes :=
  Np.u32_be t ++ Np.u32_be d1 ++ Np.u32_be d2 ++ Np.u32_be d3.

(** Decoding text first: the UTF-8 attempt, whose string is returned when
    there is one; on bytes that are no valid UTF-8 the deserialisation
    attempt, whose value is returned when there is one, the raw bytes
    after a [PickleError]. *)
Definition decode_text_first {P : Pickle} (b : bytes) : M pyval :=
  match Utf8.decode b with
  | Some s => mkM [Utf8Decode b] (Return (VStr s))
  | None => mkM [Utf8Decode b; PickleLoads b] (after_loads b (Return (VBytes b)))
  end.

(* ################################################################# *)
(** * Part II: theorems *)

(* ================================================================= *)
(** ** The UTF-8 codec *)

Lemma to_N_byte_of_N (n : N) : n < 256 -> to_N (byte_of_N n) = n.
Proof.
  intros Hn. unfold byte_of_N.
  destruct (Byte.of_N n) as [b|] eqn:E.
  - now apply Byte.to_of_N.
  - apply Byte.of_N_None_iff in E. lia.
Qed.

Lemma byte_of_N_to_N (b : byte) : byte_of_N (to_N b) = b.
Proof. unfold byte_of_N. now rewrite Byte.of_to_N. Qed.

Lemma to_N_lt_256 (b : byte) : to_N b < 256.
Proof. pose proof (Byte.to_N_bounded b). lia. Qed.

Module Utf8Facts.
Import Utf8.

Ltac bool_to_prop :=
  repeat match goal with
    | H : (_ && _)%bool = true |- _ => apply andb_true_iff in H; destruct H
    | H : (_ && _)%bool = false |- _ => apply andb_false_iff in H
    | H : negb _ = true |- _ => apply negb_true_iff in H
    | H : (_ <? _) = true |- _ => apply N.ltb_lt in H
    | H : (_ <? _) = false |- _ => apply N.ltb_ge in H
    | H : (_ <=? _) = true |- _ => apply N.leb_le in H
    | H : (_ <=? _) = false |- _ => apply N.leb_gt in H
    end.

Ltac prop_to_bool :=
  repeat match goal with
    | |- (_ && _)%bool = true => apply andb_true_iff; split
    | |- negb _ = true => apply negb_true_iff
    | |- (_ && _)%bool = false => apply andb_false_iff
    | |- (_ <? _) = true => apply N.ltb_lt
    | |- (_ <? _) = false => apply N.ltb_ge
    | |- (_ <=? _) = true => apply N.leb_le
    | |- (_ <=? _) = false => apply N.leb_gt
    end.

Ltac some_inv H :=
  match type of H with
  | Some ?a = Some ?b =>
      let E := fresh in
      assert (E : a = b) by (clear - H; congruence); clear H; subst
  end.

Lemma decode_cons (b0 : byte) (r0 : bytes) :
  decode (b0 :: r0) =
  let n0 := to_N b0 in
  if n0 <? 0x80 then option_map (cons n0) (decode r0)
  else if n0 <? 0xC0 then None
  else if n0 <? 0xE0 then
    match r0 with
    | b1 :: r1 =>
        let c := (n0 - 0xC0) * 64 + cont_bits b1 in
        if is_cont b1 && accept2 c
        then option_map (cons c) (decode r1)
        else None
    | _ => None
    end
  else if n0 <? 0xF0 then
    match r0 with
    | b1 :: b2 :: r2 =>
        let c := (n0 - 0xE0) * 4096 + cont_bits b1 * 64 + cont_bits b2 in
        if is_cont b1 && is_cont b2 && accept3 c
        then option_map (cons c) (decode r2)
        else None
    | _ => None
    end
  else if n0 <? 0xF8 then
    match r0 with
    | b1 :: b2 :: b3 :: r3 =>
        let c := (n0 - 0xF0) * 262144 + cont_bits b1 * 4096
                 + cont_bits b2 * 64 + cont_bits b3 in
        if is_cont b1 && is_cont b2 && is_cont b3 && accept4 c
        then option_map (cons c) (decode r3)
        else None
    | _ => None
    end
  else None.
Proof. reflexivity. Qed.

(** Decoding the encoding of one code point yields that code point and
    continues with the rest of the input. *)
Lemma decode_encode_char (c : N) (e r : bytes) :
  encode_char c = Some e ->
  decode (e ++ r) = option_map (cons c) (decode r).
Proof.
  unfold encode_char. intros H.
  destruct (c <? 0x80) eqn:H1.
  { some_inv H. bool_to_prop. rewrite <- ?app_comm_cons, app_nil_l, decode_cons; cbv zeta.
    rewrite to_N_byte_of_N by lia.
    replace (c <? 0x80) with true by (symmetry; prop_to_bool; lia).
    reflexivity. }
  destruct (c <? 0x800) eqn:H2.
  { some_inv H. bool_to_prop. rewrite <- ?app_comm_cons, app_nil_l, decode_cons; cbv zeta.
    unfold is_cont, cont_bits, accept2.
    rewrite !to_N_byte_of_N by lia.
    replace (0xC0 + c / 64 <? 0x80) with false by (symmetry; prop_to_bool; lia).
    replace (0xC0 + c / 64 <? 0xC0) with false by (symmetry; prop_to_bool; lia).
    replace (0xC0 + c / 64 <? 0xE0) with true by (symmetry; prop_to_bool; lia).
    replace ((0xC0 + c / 64 - 0xC0) * 64 + (0x80 + c mod 64 - 0x80)) with c by lia.
    replace (_ && _)%bool with true; [reflexivity|].
    symmetry; prop_to_bool; lia. }
  destruct (c <? 0x10000) eqn:H3.
  { destruct ((0xD800 <=? c) && (c <=? 0xDFFF))%bool eqn:H4; [discriminate|].
    some_inv H. bool_to_prop. rewrite <- ?app_comm_cons, app_nil_l, decode_cons; cbv zeta.
    unfold is_cont, cont_bits, accept3.
    rewrite !to_N_byte_of_N by lia.
    replace (0xE0 + c / 4096 <? 0x80) with false by (symmetry; prop_to_bool; lia).
    replace (0xE0 + c / 4096 <? 0xC0) with false by (symmetry; prop_to_bool; lia).
    replace (0xE0 + c / 4096 <? 0xE0) with false by (symmetry; prop_to_bool; lia).
    replace (0xE0 + c / 4096 <? 0xF0) with true by (symmetry; prop_to_bool; lia).
    replace ((0xE0 + c / 4096 - 0xE0) * 4096 + (0x80 + (c / 64) mod 64 - 0x80) * 64
             + (0x80 + c mod 64 - 0x80)) with c by lia.
    replace (_ && _)%bool with true; [reflexivity|].
    symmetry; prop_to_bool; try lia.
    destruct H4; bool_to_prop; [left|right]; prop_to_bool; lia. }
  destruct (c <? 0x110000) eqn:H4; [|discriminate].
  some_inv H. bool_to_prop. rewrite <- ?app_comm_cons, app_nil_l, decode_cons; cbv zeta.
  unfold is_cont, cont_bits, accept4.
  rewrite !to_N_byte_of_N by lia.
  replace (0xF0 + c / 262144 <? 0x80) with false by (symmetry; prop_to_bool; lia).
  replace (0xF0 + c / 262144 <? 0xC0) with false by (symmetry; prop_to_bool; lia).
  replace (0xF0 + c / 262144 <? 0xE0) with false by (symmetry; prop_to_bool; lia).
  replace (0xF0 + c / 262144 <? 0xF0) with false by (symmetry; prop_to_bool; lia).
  replace (0xF0 + c / 262144 <? 0xF8) with true by (symmetry; prop_to_bool; lia).
  replace ((0xF0 + c / 262144 - 0xF0) * 262144
           + (0x80 + (c / 4096) mod 64 - 0x80) * 4096
           + (0x80 + (c / 64) mod 64 - 0x80) * 64
           + (0x80 + c mod 64 - 0x80)) with c by lia.
  replace (_ && _)%bool with true; [reflexivity|].
  symmetry; prop_to_bool; lia.
Qed.

(** Every string that can be encoded decodes back to itself. *)
Lemma decode_encode (s : pystr) (b : bytes) :
  encode s = Some b -> decode b = Some s.
Proof.
  revert b. induction s as [|c s IH]; intros b H; cbn in H.
  - now some_inv H.
  - destruct (encode_char c) as [e|] eqn:Ec; [|discriminate].
    destruct (encode s) as [r|] eqn:Er; [|discriminate].
    some_inv H.
    rewrite (decode_encode_char _ _ _ Ec), (IH r eq_refl). reflexivity.
Qed.


Ltac set_ifs :=
  repeat match goal with
    | |- context [if ?c then _ else _] =>
        first [ replace c with true by (symmetry; prop_to_bool; lia)
              | replace c with false by (symmetry; prop_to_bool; lia) ];
        cbv iota
    end.

Lemma encode_char_1 (b0 : byte) :
  to_N b0 < 0x80 -> encode_char (to_N b0) = Some [b0].
Proof.
  intros H. unfold encode_char. set_ifs. now rewrite byte_of_N_to_N.
Qed.

Lemma encode_char_2 (b0 b1 : byte) :
  0xC0 <= to_N b0 < 0xE0 -> is_cont b1 = true ->
  accept2 ((to_N b0 - 0xC0) * 64 + cont_bits b1) = true ->
  encode_char ((to_N b0 - 0xC0) * 64 + cont_bits b1) = Some [b0; b1].
Proof.
  unfold is_cont, accept2, cont_bits, encode_char. intros H0 H1 Ha.
  bool_to_prop.
  set (c := (to_N b0 - 0xC0) * 64 + (to_N b1 - 0x80)) in *.
  assert (E0 : 0xC0 + c / 64 = to_N b0) by (subst c; lia).
  assert (E1 : 0x80 + c mod 64 = to_N b1) by (subst c; lia).
  rewrite E0, E1, !byte_of_N_to_N.
  replace (c <? 0x80) with false by (symmetry; prop_to_bool; lia).
  replace (c <? 0x800) with true by (symmetry; prop_to_bool; subst c; lia).
  reflexivity.
Qed.

Lemma encode_char_3 (b0 b1 b2 : byte) :
  0xE0 <= to_N b0 < 0xF0 -> is_cont b1 = true -> is_cont b2 = true ->
  accept3 ((to_N b0 - 0xE0) * 4096 + cont_bits b1 * 64 + cont_bits b2) = true ->
  encode_char ((to_N b0 - 0xE0) * 4096 + cont_bits b1 * 64 + cont_bits b2)
  = Some [b0; b1; b2].
Proof.
  unfold is_cont, accept3, cont_bits, encode_char. intros H0 H1 H2 Ha.
  apply andb_true_iff in Ha. destruct Ha as [Ha Hs].
  apply negb_true_iff in Hs. bool_to_prop.
  set (c := (to_N b0 - 0xE0) * 4096 + (to_N b1 - 0x80) * 64 + (to_N b2 - 0x80)) in *.
  assert (E0 : 0xE0 + c / 4096 = to_N b0) by (subst c; lia).
  assert (E1 : 0x80 + (c / 64) mod 64 = to_N b1) by (subst c; lia).
  assert (E2 : 0x80 + c mod 64 = to_N b2) by (subst c; lia).
  rewrite E0, E1, E2, !byte_of_N_to_N.
  replace (c <? 0x80) with false by (symmetry; prop_to_bool; lia).
  replace (c <? 0x800) with false by (symmetry; prop_to_bool; lia).
  replace (c <? 0x10000) with true by (symmetry; prop_to_bool; subst c; lia).
  replace ((0xD800 <=? c) && (c <=? 0xDFFF))%bool with false; [reflexivity|].
  symmetry. apply andb_false_iff.
  destruct Hs; [left|right]; assumption.
Qed.

Lemma encode_char_4 (b0 b1 b2 b3 : byte) :
  0xF0 <= to_N b0 < 0xF8 ->
  is_cont b1 = true -> is_cont b2 = true -> is_cont b3 = true ->
  accept4 ((to_N b0 - 0xF0) * 262144 + cont_bits b1 * 4096
           + cont_bits b2 * 64 + cont_bits b3) = true ->
  encode_char ((to_N b0 - 0xF0) * 262144 + cont_bits b1 * 4096
               + cont_bits b2 * 64 + cont_bits b3)
  = Some [b0; b1; b2; b3].
Proof.
  unfold is_cont, accept4, cont_bits, encode_char. intros H0 H1 H2 H3 Ha.
  bool_to_prop.
  set (c := (to_N b0 - 0xF0) * 262144 + (to_N b1 - 0x80) * 4096
            + (to_N b2 - 0x80) * 64 + (to_N b3 - 0x80)) in *.
  assert (E0 : 0xF0 + c / 262144 = to_N b0) by (subst c; lia).
  assert (E1 : 0x80 + (c / 4096) mod 64 = to_N b1) by (subst c; lia).
  assert (E2 : 0x80 + (c / 64) mod 64 = to_N b2) by (subst c; lia).
  assert (E3 : 0x80 + c mod 64 = to_N b3) by (subst c; lia).
  rewrite E0, E1, E2, E3, !byte_of_N_to_N.
  replace (c <? 0x80) with false by (symmetry; prop_to_bool; lia).
  replace (c <? 0x800) with false by (symmetry; prop_to_bool; lia).
  replace (c <? 0x10000) with false by (symmetry; prop_to_bool; lia).
  replace (c <? 0x110000) with true by (symmetry; prop_to_bool; lia).
  reflexivity.
Qed.


Lemma option_map_cons_some (c : N) (o : option pystr) (s : pystr) :
  option_map (cons c) o = Some s -> exists s', o = Some s' /\ s = c :: s'.
Proof.
  destruct o as [s'|]; cbn; [|discriminate].
  intros H. exists s'. split; congruence.
Qed.

Lemma encode_cons (c : N) (s : pystr) (e r : bytes) :
  encode_char c = Some e -> encode s = Some r -> encode (c :: s) = Some (e ++ r).
Proof. intros Hc Hs. cbn [encode]. now rewrite Hc, Hs. Qed.

Lemma encode_decode_bounded (n : nat) :
  forall (b : bytes) (s : pystr),
    (List.length b <= n)%nat -> decode b = Some s -> encode s = Some b.
Proof.
  induction n as [|n IH]; intros b s Hlen H.
  - destruct b; [|cbn in Hlen; lia]. cbn in H. now some_inv H.
  - destruct b as [|b0 r0]; [cbn in H; now some_inv H|].
    rewrite decode_cons in H. cbv zeta in H. cbn [List.length] in Hlen.
    destruct (to_N b0 <? 0x80) eqn:H1.
    { apply option_map_cons_some in H. destruct H as [s' [Hd ->]].
      bool_to_prop.
      apply (@encode_cons _ _ [b0] r0 (encode_char_1 b0 H1)), IH; [lia|exact Hd]. }
    destruct (to_N b0 <? 0xC0) eqn:H2; [discriminate|].
    destruct (to_N b0 <? 0xE0) eqn:H3.
    { destruct r0 as [|b1 r1]; [discriminate|].
      destruct (is_cont b1 && accept2 _)%bool eqn:Hc; [|discriminate].
      apply option_map_cons_some in H. destruct H as [s' [Hd ->]].
      apply andb_true_iff in Hc. destruct Hc as [Hc1 Ha].
      apply N.ltb_ge in H2. apply N.ltb_lt in H3.
      apply (@encode_cons _ _ [b0; b1] r1);
        [apply encode_char_2; auto | apply IH; [cbn in Hlen; lia|exact Hd]]. }
    destruct (to_N b0 <? 0xF0) eqn:H4.
    { destruct r0 as [|b1 [|b2 r2]]; try discriminate.
      destruct (is_cont b1 && is_cont b2 && accept3 _)%bool eqn:Hc; [|discriminate].
      apply option_map_cons_some in H. destruct H as [s' [Hd ->]].
      apply andb_true_iff in Hc. destruct Hc as [Hc Ha].
      apply andb_true_iff in Hc. destruct Hc as [Hc1 Hc2].
      apply N.ltb_ge in H3. apply N.ltb_lt in H4.
      apply (@encode_cons _ _ [b0; b1; b2] r2);
        [apply encode_char_3; auto | apply IH; [cbn in Hlen; lia|exact Hd]]. }
    destruct (to_N b0 <? 0xF8) eqn:H5; [|discriminate].
    destruct r0 as [|b1 [|b2 [|b3 r3]]]; try discriminate.
    destruct (is_cont b1 && is_cont b2 && is_cont b3 && accept4 _)%bool eqn:Hc;
      [|discriminate].
    apply option_map_cons_some in H. destruct H as [s' [Hd ->]].
    apply andb_true_iff in Hc. destruct Hc as [Hc Ha].
    apply andb_true_iff in Hc. destruct Hc as [Hc Hc3].
    apply andb_true_iff in Hc. destruct Hc as [Hc1 Hc2].
    apply N.ltb_ge in H4. apply N.ltb_lt in H5.
    apply (@encode_cons _ _ [b0; b1; b2; b3] r3);
      [apply encode_char_4; auto | apply IH; [cbn in Hlen; lia|exact Hd]].
Qed.

(** Bytes that decode are the encoding of what they decode to. *)
Lemma encode_decode (b : bytes) (s : pystr) :
  decode b = Some s -> encode s = Some b.
Proof. apply (@encode_decode_bounded (List.length b)). lia. Qed.

(** Distinct byte strings never decode to the same text. *)
Lemma decode_inj (b1 b2 : bytes) (s : pystr) :
  decode b1 = Some s -> decode b2 = Some s -> b1 = b2.
Proof.
  intros H1 H2. apply encode_decode in H1, H2. congruence.
Qed.

End Utf8Facts.

(* ================================================================= *)
(** ** [convert_set_type] and [convert_get_type], case by case *)

Section FunctionsFacts.
Context {P : Pickle}.

Lemma convert_set_type_str (s : pystr) :
  convert_set_type (VStr s) = mkM [] (Return (RStr s)).
Proof. reflexivity. Qed.

Lemma convert_set_type_other (v : pyval) :
  is_str v = false ->
  convert_set_type v =
  mkM [PickleDumps v]
      match dumps v with
      | Return b => Return (RBytes b)
      | Raise e => Raise e
      end.
Proof.
  intros Hv. destruct v; try discriminate Hv;
    cbv [convert_set_type pickle_dumps perform bind ret M_monad trace outcome];
    destruct (dumps _); reflexivity.
Qed.

Lemma convert_get_type_none (pickle_first : bool) :
  convert_get_type None pickle_first = mkM [] (Return VNone).
Proof. reflexivity. Qed.

(** Hint off: text first; the deserialisation attempt is made only on
    bytes that are no valid UTF-8. *)
Lemma convert_get_type_text_first (b : bytes) :
  convert_get_type (Some b) false =
  match Utf8.decode b with
  | Some s => mkM [Utf8Decode b] (Return (VStr s))
  | None => mkM [Utf8Decode b; PickleLoads b]
                (after_loads b (Return (VBytes b)))
  end.
Proof.
  cbv [convert_get_type try_except bytes_decode pickle_loads perform bind ret
       M_monad trace outcome negb after_loads is_UnicodeDecodeError].
  destruct (Utf8.decode b); [reflexivity|].
  cbn [app]. destruct (loads b) as [v|e]; [reflexivity|].
  destruct (is_PickleError e); reflexivity.
Qed.

(** Hint on: deserialisation first; the text attempt is made only after
    a [PickleError]. *)
Lemma convert_get_type_pickle_first (b : bytes) :
  convert_get_type (Some b) true =
  match loads b with
  | Return v => mkM [PickleLoads b] (Return v)
  | Raise e =>
      if is_PickleError e
      then mkM [PickleLoads b; Utf8Decode b]
               match Utf8.decode b with
               | Some s => Return (VStr s)
               | None => Return (VBytes b)
               end
      else mkM [PickleLoads b] (Raise e)
  end.
Proof.
  cbv [convert_get_type try_except bytes_decode pickle_loads perform bind ret
       M_monad trace outcome negb is_UnicodeDecodeError].
  destruct (loads b) as [v|e]; [reflexivity|].
  destruct (is_PickleError e); [|reflexivity].
  destruct (Utf8.decode b); reflexivity.
Qed.

End FunctionsFacts.

(* ================================================================= *)
(** ** Decode: precedence, round trips, failures *)

(** Claim C1 (the precedence of Decode).  The code breaks the claimed
    fall-through at the empty byte string with the hint on: the
    deserialisation attempt fails with [EOFError], which is no
    [PickleError], so the exception leaves [convert_get_type]; no UTF-8
    attempt is made, although the bytes decode to the empty string, which
    the claim has returned. *)
Theorem convert_get_type_empty_pickle_first :
  convert_get_type (P := MiniPickle.pickle) (Some []) true
  = mkM [PickleLoads []] (Raise EOFError)
  /\ Utf8.decode [] = Some []
  /\ is_PickleError EOFError = false.
Proof. repeat split. Qed.

(** An attempt that fails with an exception other than [PickleError] ends
    [convert_get_type] with that exception, whatever the hint. *)
Lemma convert_get_type_uncaught {P : Pickle} (b : bytes) (e : exn) :
  loads b = Raise e ->
  is_PickleError e = false ->
  convert_get_type (Some b) true = mkM [PickleLoads b] (Raise e) /\
  (Utf8.decode b = None ->
   convert_get_type (Some b) false = mkM [Utf8Decode b; PickleLoads b] (Raise e)).
Proof.
  intros Hl He. split.
  - rewrite convert_get_type_pickle_first, Hl, He. reflexivity.
  - intros Hd. rewrite convert_get_type_text_first, Hd.
    unfold after_loads. rewrite Hl, He. reflexivity.
Qed.

Lemma Encode_str {P : Pickle} (s : pystr) (b : bytes) :
  Encode (VStr s) = Return b <-> Utf8.encode s = Some b.
Proof.
  unfold Encode. cbn. destruct (Utf8.encode s); split; congruence.
Qed.

(** Claim C2, as stated, fails: the text ["N."] is a pickle of [None], and
    with the hint on it comes back as [None]. *)
Lemma text_roundtrip_counterexample :
  Encode (P := MiniPickle.pickle) (VStr (text "N.")) = Return (blit "N.") /\
  Decode (P := MiniPickle.pickle) (Some (blit "N.")) true = Return VNone /\
  Return VNone <> Return (VStr (text "N.")).
Proof. repeat split. discriminate. Qed.

(** Claim C2, amended: a string that can be encoded comes back with the
    hint off; with the hint on it comes back when the deserialisation
    attempt on its bytes fails with a [PickleError], and when that attempt
    succeeds the deserialised value is returned instead. *)
Theorem text_roundtrip {P : Pickle} (s : pystr) (b : bytes) :
  Encode (VStr s) = Return b ->
  Decode (Some b) false = Return (VStr s) /\
  (forall e, loads b = Raise e -> is_PickleError e = true ->
             Decode (Some b) true = Return (VStr s)) /\
  (forall v, loads b = Return v -> Decode (Some b) true = Return v).
Proof.
  intros He. apply Encode_str, Utf8Facts.decode_encode in He.
  unfold Decode. rewrite convert_get_type_text_first, convert_get_type_pickle_first, He.
  repeat split.
  - intros e Hl Hc. rewrite Hl, Hc. reflexivity.
  - intros v Hl. rewrite Hl. reflexivity.
Qed.

Lemma text_roundtrip_witness :
  Decode (P := MiniPickle.pickle) (Some (blit "Hello")) false
  = Return (VStr (text "Hello")).
Proof.
  exact (proj1 (@text_roundtrip MiniPickle.pickle (text "Hello") (blit "Hello")
                  eq_refl)).
Defined.

(** Claim C3, as stated, fails: the bytes of a pickled [None] are not
    [None], and they decode to [None] under either hint. *)
Lemma decode_none_from_bytes :
  Encode (P := MiniPickle.pickle) VNone = Return pickled_none /\
  Decode (P := MiniPickle.pickle) (Some pickled_none) true = Return VNone /\
  Decode (P := MiniPickle.pickle) (Some pickled_none) false = Return VNone.
Proof. repeat split. Qed.

(** Claim C3, amended: when the deserialisation attempt that Decode
    makes on [b] (always with the hint on; with the hint off only when
    [b] is no valid UTF-8) does not fail with an exception other than
    [PickleError], Decode returns a value, which is the deserialised
    object, the decoded string or the raw bytes.  A [None] input yields
    [None]; bytes yield [None] exactly when that attempt is made and
    returns [None]. *)
Theorem decode_returns_a_value {P : Pickle} (b : bytes) (hint : bool) :
  (hint = true \/ Utf8.decode b = None ->
   forall e, loads b = Raise e -> is_PickleError e = true) ->
  Decode None hint = Return VNone /\
  (exists v,
      Decode (Some b) hint = Return v /\
      (loads b = Return v \/
       (exists s, Utf8.decode b = Some s /\ v = VStr s) \/
       v = VBytes b)) /\
  (Decode (Some b) hint = Return VNone <->
   loads b = Return VNone /\ (hint = true \/ Utf8.decode b = None)).
Proof.
  intros Hc. split; [reflexivity|]. unfold Decode.
  destruct hint.
  - rewrite convert_get_type_pickle_first.
    destruct (loads b) as [v|e] eqn:Hl.
    + split.
      * exists v. cbn. auto.
      * cbn. split.
        -- intros H. injection H as ->. auto.
        -- intros [H _]. exact H.
    + rewrite (Hc (or_introl eq_refl) e eq_refl). cbn. split.
      * destruct (Utf8.decode b) as [s|] eqn:Hd.
        -- exists (VStr s). split; eauto.
        -- exists (VBytes b). split; auto.
      * split.
        -- destruct (Utf8.decode b); discriminate.
        -- intros [H _]. discriminate H.
  - rewrite convert_get_type_text_first.
    destruct (Utf8.decode b) as [s|] eqn:Hd.
    + cbn. split.
      * exists (VStr s). split; eauto.
      * split; [discriminate|]. intros [_ [H|H]]; discriminate H.
    + cbn. unfold after_loads. destruct (loads b) as [v|e] eqn:Hl.
      * split.
        -- exists v. auto.
        -- split.
           ++ intros H. injection H as ->. auto.
           ++ intros [H _]. exact H.
      * rewrite (Hc (or_intror eq_refl) e eq_refl). split.
        -- exists (VBytes b). auto.
        -- split; [discriminate|]. intros [H _]. discriminate H.
Qed.

Lemma decode_returns_a_value_witness :
  exists v, Decode (P := MiniPickle.pickle) (Some (blit "Hello")) true = Return v.
Proof.
  destruct (@decode_returns_a_value MiniPickle.pickle (blit "Hello") true)
    as [_ [[v [Hv _]] _]].
  - intros _ e H. vm_compute in H. injection H as <-. reflexivity.
  - exists v. exact Hv.
Defined.

(** Claim C4: a value that is no string and that the serialiser represents
    ([dumps] yields bytes from which [loads] yields the value) is encoded
    as its pickle and comes back from Decode with the hint on; the
    deserialisation attempt is the only one made. *)
Theorem pickled_value_roundtrip {P : Pickle} (v : pyval) (b : bytes) :
  is_str v = false ->
  dumps v = Return b ->
  loads b = Return v ->
  Encode v = Return b /\
  Decode (Some b) true = Return v /\
  trace (convert_get_type (Some b) true) = [PickleLoads b].
Proof.
  intros Hv Hd Hl. unfold Encode, Decode.
  rewrite (convert_set_type_other _ Hv), Hd, convert_get_type_pickle_first, Hl.
  repeat split.
Qed.

Lemma pickled_value_roundtrip_witness :
  Encode (P := MiniPickle.pickle) (VInt 42) = Return pickled_42 /\
  Decode (P := MiniPickle.pickle) (Some pickled_42) true = Return (VInt 42).
Proof.
  destruct (@pickled_value_roundtrip MiniPickle.pickle (VInt 42)
              pickled_42 eq_refl eq_refl eq_refl) as [H1 [H2 _]].
  split; assumption.
Defined.

(* ================================================================= *)
(** ** Sequencing and comprehensions *)

Lemma bind_return {A B} (m : M A) (f : A -> M B) (a : A) :
  outcome m = Return a ->
  (x <- m ;; f x) = mkM (trace m ++ trace (f a)) (outcome (f a)).
Proof. intros H. cbn. now rewrite H. Qed.

Lemma bind_raise {A B} (m : M A) (f : A -> M B) (e : exn) :
  outcome m = Raise e ->
  (x <- m ;; f x) = mkM (trace m) (Raise e).
Proof. intros H. cbn. now rewrite H. Qed.

Lemma M_eta {A} (m : M A) : mkM (trace m) (outcome m) = m.
Proof. now destruct m. Qed.

Lemma super_bind {A B} (c : command) (answer : result A) (f : A -> M B) :
  (x <- super c answer ;; f x) =
  match answer with
  | Return a => mkM (StoreCall c :: trace (f a)) (outcome (f a))
  | Raise e => mkM [StoreCall c] (Raise e)
  end.
Proof. cbn. destruct answer; reflexivity. Qed.

Lemma list_comp_cons {A B} (f : A -> M B) (x : A) (xs : list A) :
  list_comp f (x :: xs) =
  match outcome (f x) with
  | Return y =>
      mkM (trace (f x) ++ trace (list_comp f xs))
          match outcome (list_comp f xs) with
          | Return ys => Return (y :: ys)
          | Raise e => Raise e
          end
  | Raise e => mkM (trace (f x)) (Raise e)
  end.
Proof.
  cbn. destruct (outcome (f x)); [|reflexivity].
  destruct (outcome (list_comp f xs)); cbn; now rewrite ?app_nil_r.
Qed.

(** A comprehension whose first elements all return runs the next
    element. *)
Lemma list_comp_reaches {A B} (f : A -> M B) (pre : list A) (x : A) (post : list A) :
  Forall (fun a => returns (outcome (f a)) = true) pre ->
  exists t,
    trace (list_comp f (pre ++ x :: post))
    = flat_map (fun a => trace (f a)) pre ++ trace (f x) ++ t.
Proof.
  induction 1 as [|a pre Ha _ IH].
  - cbn [app flat_map]. rewrite list_comp_cons.
    destruct (outcome (f x)); cbn [trace].
    + eexists. reflexivity.
    + exists []. now rewrite app_nil_r.
  - destruct IH as [t IH].
    rewrite <- app_comm_cons, list_comp_cons.
    destruct (outcome (f a)); [|discriminate Ha].
    cbn [trace flat_map]. rewrite IH. exists t. now rewrite <- app_assoc.
Qed.

Lemma dict_comp_from_cons {A V} (f : A -> M (pystr * V)) (x : A) (items : list A)
    (acc : dict pystr V) :
  dict_comp_from f (x :: items) acc =
  match outcome (f x) with
  | Return kv =>
      let rest := dict_comp_from f items (dict_setitem (fst kv) (snd kv) acc) in
      mkM (trace (f x) ++ trace rest) (outcome rest)
  | Raise e => mkM (trace (f x)) (Raise e)
  end.
Proof. reflexivity. Qed.

Lemma dict_setitem_fresh {V} (k : pystr) (v : V) (d : dict pystr V) :
  ~ In k (keys_of d) -> dict_setitem k v d = d ++ [(k, v)].
Proof.
  induction d as [|[k' v'] d IH]; intros Hk; [reflexivity|].
  cbn in Hk |- *. destruct (pystr_eq_dec k k') as [->|Hne].
  - exfalso. apply Hk. now left.
  - rewrite IH; [reflexivity|]. intros Hin. apply Hk. now right.
Qed.

Lemma keys_of_app {K V} (d1 d2 : dict K V) :
  keys_of (d1 ++ d2) = keys_of d1 ++ keys_of d2.
Proof. apply map_app. Qed.

(** Items that all evaluate, to pairwise distinct keys not yet in the
    dict, are stored in order behind what is there. *)
Lemma dict_comp_from_returns {A V} (f : A -> M (pystr * V)) (items : list A)
    (kvs : dict pystr V) :
  Forall2 (fun x kv => outcome (f x) = Return kv) items kvs ->
  forall acc,
    NoDup (keys_of acc ++ keys_of kvs) ->
    dict_comp_from f items acc
    = mkM (flat_map (fun x => trace (f x)) items) (Return (acc ++ kvs)).
Proof.
  induction 1 as [|x kv items kvs Hx _ IH]; intros acc Hnd.
  - cbn. now rewrite app_nil_r.
  - rewrite dict_comp_from_cons, Hx. cbv zeta.
    assert (Hfresh : ~ In (fst kv) (keys_of acc)).
    { cbn in Hnd. apply NoDup_remove_2 in Hnd.
      intros Hin. apply Hnd, in_or_app. now left. }
    rewrite (dict_setitem_fresh _ _ _ Hfresh).
    rewrite IH.
    + cbn [trace outcome flat_map]. rewrite <- app_assoc.
      destruct kv; reflexivity.
    + rewrite keys_of_app, <- app_assoc. exact Hnd.
Qed.

(** A comprehension that returns has evaluated every item. *)
Lemma dict_comp_from_inv {A V} (f : A -> M (pystr * V)) (items : list A) :
  forall acc m,
    outcome (dict_comp_from f items acc) = Return m ->
    exists kvs, Forall2 (fun x kv => outcome (f x) = Return kv) items kvs.
Proof.
  induction items as [|x items IH]; intros acc m H.
  - exists []. constructor.
  - rewrite dict_comp_from_cons in H.
    destruct (outcome (f x)) as [kv|e] eqn:Hx; [|discriminate H].
    cbn in H. apply IH in H. destruct H as [kvs H].
    exists (kv :: kvs). now constructor.
Qed.

(** The first item that raises ends the comprehension with its
    exception; nothing is evaluated after it. *)
Lemma dict_comp_from_raises {A V} (f : A -> M (pystr * V)) (pre : list A)
    (x : A) (post : list A) (e : exn) :
  Forall (fun a => returns (outcome (f a)) = true) pre ->
  outcome (f x) = Raise e ->
  forall acc,
    dict_comp_from f (pre ++ x :: post) acc
    = mkM (flat_map (fun a => trace (f a)) pre ++ trace (f x)) (Raise e).
Proof.
  intros Hpre Hx. induction Hpre as [|a pre Ha _ IH]; intros acc.
  - cbn [app]. rewrite dict_comp_from_cons, Hx. reflexivity.
  - rewrite <- app_comm_cons, dict_comp_from_cons.
    destruct (outcome (f a)); [|discriminate Ha]. cbv zeta.
    rewrite IH. cbn [trace outcome flat_map]. now rewrite app_assoc.
Qed.

Lemma Forall2_NoDup {A B} (R : A -> B -> Prop) (l : list A) (l' : list B) :
  (forall a a' b, R a b -> R a' b -> a = a') ->
  Forall2 R l l' -> NoDup l -> NoDup l'.
Proof.
  intros Hinj H. induction H as [|a b l l' Hab H IH]; intros Hnd.
  - constructor.
  - inversion Hnd as [|? ? Hnotin Hnd']; subst. constructor; [|now apply IH].
    intros Hin. apply Hnotin.
    clear - Hinj Hab H Hin. induction H as [|a0 b0 l l' Hab0 H IH].
    + destruct Hin.
    + destruct Hin as [->|Hin]; [left; eapply Hinj; eassumption | right; auto].
Qed.

(* ================================================================= *)
(** ** Key listing: keys, randomkey, type *)

Section KeyListing.
Context {P : Pickle}.
Variable R : Redis.

Lemma keys_elements_text (l : list bytes) (ss : list pystr) :
  Forall2 (fun b s => Utf8.decode b = Some s) l ss ->
  list_comp (fun key => convert_get_type (Some key) false) l
  = mkM (map Utf8Decode l) (Return (map VStr ss)).
Proof.
  induction 1 as [|b s l ss Hb _ IH]; [reflexivity|].
  rewrite list_comp_cons, convert_get_type_text_first, Hb, IH. reflexivity.
Qed.

Lemma list_comp_run {A B} (f : A -> M B) (xs : list A) :
  (forall ys,
      outcome (list_comp f xs) = Return ys <->
      Forall2 (fun x y => outcome (f x) = Return y) xs ys) /\
  (forall ys,
      outcome (list_comp f xs) = Return ys ->
      trace (list_comp f xs) = flat_map (fun x => trace (f x)) xs) /\
  (forall pre x post e,
      xs = pre ++ x :: post ->
      Forall (fun a => returns (outcome (f a)) = true) pre ->
      outcome (f x) = Raise e ->
      list_comp f xs
      = mkM (flat_map (fun a => trace (f a)) pre ++ trace (f x)) (Raise e)).
Proof.
  split; [|split].
  - induction xs as [|x xs IH]; intros ys.
    + cbn. split.
      * intros H. injection H as <-. constructor.
      * intros H. inversion H. reflexivity.
    + rewrite list_comp_cons.
      destruct (outcome (f x)) as [y|e] eqn:Hx; cbn [outcome].
      * destruct (outcome (list_comp f xs)) as [ys'|e] eqn:Hxs; split.
        -- intros H. injection H as <-. constructor; [exact Hx|]. now apply IH.
        -- intros H. inversion H as [|? y0 ? ys0 Hy Hr]; subst.
           apply IH in Hr. injection Hr as <-.
           rewrite Hx in Hy. injection Hy as <-. reflexivity.
        -- discriminate.
        -- intros H. inversion H as [|? y0 ? ys0 Hy Hr]; subst.
           apply IH in Hr. discriminate Hr.
      * split; [discriminate|].
        intros H. inversion H as [|? y0 ? ys0 Hy Hr]; subst. congruence.
  - induction xs as [|x xs IH]; intros ys H; [reflexivity|].
    rewrite list_comp_cons in H |- *.
    destruct (outcome (f x)); [|discriminate H]. cbn [trace outcome] in *.
    destruct (outcome (list_comp f xs)) as [ys'|] eqn:Hxs; [|discriminate H].
    cbn [flat_map]. now rewrite (IH ys').
  - intros pre x post e -> Hpre Hx. induction Hpre as [|a pre Ha _ IH].
    + cbn [app flat_map]. rewrite list_comp_cons, Hx. reflexivity.
    + rewrite <- app_comm_cons, list_comp_cons.
      destruct (outcome (f a)); [|discriminate Ha].
      rewrite IH. cbn [trace outcome flat_map]. now rewrite app_assoc.
Qed.

(** Claim C5, amended: the key-listing operations apply Decode with the
    hint off to every byte sequence the store returns, that is
    [decode_text_first]: the UTF-8 attempt first, which alone is made on
    bytes that are valid UTF-8 and whose string is returned; on bytes
    that are no valid UTF-8 a deserialisation attempt follows, whose
    value is returned if there is one.  randomkey and type do so to the
    one answer; keys does so to every key of the listing, in order: it
    returns exactly the list of what the keys decode to, after the
    events of each of them, and ends with the exception of the first key
    whose decoding raises. *)
Theorem key_listing_decodes_text_first (pattern name : pystr)
    (l : list bytes) (b : bytes) :
  redis_keys R pattern = Return (Some l) ->
  redis_randomkey R = Return (Some b) ->
  redis_type R name = Return (Some b) ->
  randomkey R
  = mkM (StoreCall SuperRandomkey :: trace (decode_text_first b))
        (outcome (decode_text_first b)) /\
  type R name
  = mkM (StoreCall (SuperType name) :: trace (decode_text_first b))
        (outcome (decode_text_first b)) /\
  (forall vs,
      outcome (keys R pattern) = Return vs <->
      Forall2 (fun k v => outcome (decode_text_first k) = Return v) l vs) /\
  (forall vs,
      outcome (keys R pattern) = Return vs ->
      trace (keys R pattern)
      = StoreCall (SuperKeys pattern)
        :: flat_map (fun k => trace (decode_text_first k)) l) /\
  (forall pre k post e,
      l = pre ++ k :: post ->
      Forall (fun a => returns (outcome (decode_text_first a)) = true) pre ->
      outcome (decode_text_first k) = Raise e ->
      keys R pattern
      = mkM (StoreCall (SuperKeys pattern)
             :: flat_map (fun a => trace (decode_text_first a)) pre
             ++ trace (decode_text_first k))
            (Raise e)).
Proof.
  intros Hk Hr Ht. unfold keys, randomkey, type.
  rewrite !super_bind, Hk, Hr, Ht. cbn [or_empty trace outcome].
  assert (Hf : forall k, convert_get_type (Some k) false = decode_text_first k)
    by (intros k; apply convert_get_type_text_first).
  rewrite !Hf.
  destruct (list_comp_run (fun key => convert_get_type (Some key) false) l)
    as (Hret & Htr & Hraise).
  split; [reflexivity|]. split; [reflexivity|]. split; [|split].
  - intros vs. rewrite Hret. split; intros H.
    + clear - H Hf. induction H; constructor; auto. now rewrite <- Hf.
    + clear - H Hf. induction H; constructor; auto. now rewrite Hf.
  - intros vs H. rewrite (Htr vs H). f_equal.
    apply flat_map_ext. intros k. now rewrite Hf.
  - intros pre k post e Hl Hpre He.
    rewrite (Hraise pre k post e Hl).
    + rewrite Hf.
      rewrite (flat_map_ext (fun a => trace (convert_get_type (Some a) false))
                 (fun a => trace (decode_text_first a)));
        [reflexivity|intros a; now rewrite Hf].
    + clear - Hpre Hf. induction Hpre; constructor; auto. now rewrite Hf.
    + now rewrite Hf.
Qed.

(** A listing of keys that are all valid UTF-8 makes no deserialisation
    attempt. *)
Lemma keys_all_text (pattern : pystr) (l : list bytes) (ss : list pystr) :
  redis_keys R pattern = Return (Some l) ->
  Forall2 (fun b s => Utf8.decode b = Some s) l ss ->
  keys R pattern
  = mkM (StoreCall (SuperKeys pattern) :: map Utf8Decode l)
        (Return (map VStr ss)).
Proof.
  intros Hk Hl. unfold keys. rewrite super_bind, Hk. cbn [or_empty].
  now rewrite (keys_elements_text _ _ Hl).
Qed.

(** In a listing, the first key that is not valid UTF-8 gets its
    deserialisation attempt. *)
Lemma keys_first_binary_key (pattern : pystr) (pre post : list bytes)
    (ss : list pystr) (b : bytes) :
  redis_keys R pattern = Return (Some (pre ++ b :: post)) ->
  Forall2 (fun k s => Utf8.decode k = Some s) pre ss ->
  Utf8.decode b = None ->
  exists t,
    trace (keys R pattern)
    = StoreCall (SuperKeys pattern) :: map Utf8Decode pre
      ++ [Utf8Decode b; PickleLoads b] ++ t.
Proof.
  intros Hk Hpre Hb. unfold keys. rewrite super_bind, Hk. cbn [or_empty trace].
  destruct (@list_comp_reaches _ _
              (fun key => convert_get_type (Some key) false) pre b post) as [t Ht].
  - clear - Hpre. induction Hpre as [|k s pre ss Hk _ IH]; constructor; auto.
    rewrite convert_get_type_text_first, Hk. reflexivity.
  - exists t. rewrite Ht. f_equal. f_equal.
    + clear - Hpre. induction Hpre as [|k s pre ss Hk _ IH]; [reflexivity|].
      cbn [flat_map map]. rewrite convert_get_type_text_first, Hk, IH. reflexivity.
    + rewrite convert_get_type_text_first, Hb. reflexivity.
Qed.

End KeyListing.

Lemma key_listing_decodes_text_first_witness :
  randomkey (P := MiniPickle.pickle) (fixed_redis (Some (blit "user:1")) [])
  = mkM [StoreCall SuperRandomkey; Utf8Decode (blit "user:1")]
        (Return (VStr (text "user:1"))).
Proof.
  exact (proj1
    (@key_listing_decodes_text_first MiniPickle.pickle
       (fixed_redis (Some (blit "user:1")) []) (text "*") (text "k")
       [blit "user:1"] (blit "user:1") eq_refl eq_refl eq_refl)).
Defined.

(** Claim C5, as stated, fails: a key whose bytes are a pickle of [None]
    is no valid UTF-8; each key-listing operation makes a deserialisation
    attempt on it and returns the deserialised [None], not text. *)
Lemma key_listing_unpickles_binary_key :
  Utf8.decode pickled_none = None /\
  randomkey (P := MiniPickle.pickle) binary_key_redis
  = mkM [StoreCall SuperRandomkey; Utf8Decode pickled_none;
         PickleLoads pickled_none]
        (Return VNone) /\
  type (P := MiniPickle.pickle) binary_key_redis (text "k")
  = mkM [StoreCall (SuperType (text "k")); Utf8Decode pickled_none;
         PickleLoads pickled_none]
        (Return VNone) /\
  keys (P := MiniPickle.pickle) binary_key_redis (text "*")
  = mkM [StoreCall (SuperKeys (text "*")); Utf8Decode pickled_none;
         PickleLoads pickled_none]
        (Return [VNone]).
Proof. repeat split. Qed.

(* ================================================================= *)
(** ** Bulk set: mset, hset with a mapping, hmset *)

Section BulkSet.
Context {P : Pickle}.
Variable R : Redis.

Lemma item_outcome (kv : pystr * pyval) (kv' : pystr * redis_value) :
  outcome (e <- convert_set_type (snd kv) ;; ret (fst kv, e)) = Return kv'
  <-> encoded_item kv kv'.
Proof.
  unfold encoded_item. cbn.
  destruct (outcome (convert_set_type (snd kv))) as [e|e]; cbn.
  - destruct kv' as [k' e']. cbn. split.
    + intros H. injection H as <- <-. now split.
    + intros [-> H]. injection H as <-. reflexivity.
  - split; [discriminate|]. intros [_ H]. discriminate H.
Qed.

Lemma item_trace (kv : pystr * pyval) :
  trace (e <- convert_set_type (snd kv) ;; ret (fst kv, e))
  = trace (convert_set_type (snd kv)).
Proof.
  cbn. destruct (outcome (convert_set_type (snd kv))); cbn;
    now rewrite ?app_nil_r.
Qed.

Lemma encoded_items_keys (d : dict pystr pyval) (m : dict pystr redis_value) :
  Forall2 encoded_item d m -> keys_of m = keys_of d.
Proof.
  induction 1 as [|kv kv' d m [Hk _] _ IH]; [reflexivity|].
  unfold keys_of in *. cbn [map]. now rewrite Hk, IH.
Qed.

Lemma encoded_items_run (d : dict pystr pyval) (m : dict pystr redis_value) :
  NoDup (keys_of d) ->
  Forall2 encoded_item d m ->
  convert_set_mapping_dic d
  = mkM (flat_map (fun kv => trace (convert_set_type (snd kv))) d) (Return m).
Proof.
  intros Hnd H. unfold convert_set_mapping_dic, dict_comp.
  rewrite (dict_comp_from_returns _ d m).
  - cbn [app]. now rewrite (flat_map_ext _ _ item_trace).
  - clear Hnd. induction H; constructor; auto. now apply item_outcome.
  - change (NoDup (keys_of m)). now rewrite (encoded_items_keys _ _ H).
Qed.

(** Claim C8: for a mapping (a dict: keys pairwise distinct), the
    conversion returns exactly the mapping that pairs each key, as it
    is and in place, with [convert_set_type] of its value; it returns
    whenever every value can be encoded; the only encoding events are
    those of the values; and mset, hmset and hset with a mapping hand
    that mapping to the store. *)
Theorem bulk_set_encodes_values_only (d : dict pystr pyval) :
  NoDup (keys_of d) ->
  (forall m, outcome (convert_set_mapping_dic d) = Return m
             <-> Forall2 encoded_item d m) /\
  (Forall (fun kv => returns (outcome (convert_set_type (snd kv))) = true) d ->
   exists m, outcome (convert_set_mapping_dic d) = Return m) /\
  (forall m,
      outcome (convert_set_mapping_dic d) = Return m ->
      keys_of m = keys_of d /\
      trace (convert_set_mapping_dic d)
      = flat_map (fun kv => trace (convert_set_type (snd kv))) d /\
      mset R (VDict d)
      = mkM (trace (convert_set_mapping_dic d) ++ [StoreCall (SuperMset m)])
            (redis_mset R m) /\
      (forall name,
          hmset R name (VDict d)
          = mkM (trace (convert_set_mapping_dic d)
                 ++ [StoreCall (SuperHmset name m)])
                (redis_hmset R name m)) /\
      (forall name key value,
          d <> [] ->
          hset R name key value (Some d)
          = mkM (trace (convert_set_mapping_dic d)
                 ++ [StoreCall (SuperHsetMapping name m)])
                (redis_hset_mapping R name m))).
Proof.
  intros Hnd.
  assert (Hiff : forall m, outcome (convert_set_mapping_dic d) = Return m
                           <-> Forall2 encoded_item d m).
  { intros m. split.
    - intros H. pose proof H as H0.
      apply dict_comp_from_inv in H0. destruct H0 as [kvs Hkvs].
      assert (Hrel : Forall2 encoded_item d kvs).
      { clear - Hkvs. induction Hkvs; constructor; auto. now apply item_outcome. }
      rewrite (encoded_items_run _ _ Hnd Hrel) in H. cbn in H.
      injection H as <-. exact Hrel.
    - intros H. now rewrite (encoded_items_run _ _ Hnd H). }
  split; [exact Hiff|]. split.
  - intros Hall.
    assert (Hex : exists m, Forall2 encoded_item d m).
    { clear - Hall. induction Hall as [|kv d Hkv _ [m IH]].
      - exists []. constructor.
      - destruct (outcome (convert_set_type (snd kv))) as [e|e] eqn:He;
          [|discriminate Hkv].
        exists ((fst kv, e) :: m). constructor; [|exact IH]. now split. }
    destruct Hex as [m Hm]. exists m. now apply Hiff.
  - intros m Hm. apply Hiff in Hm.
    pose proof (encoded_items_run _ _ Hnd Hm) as Hrun.
    split; [now apply encoded_items_keys|].
    split; [now rewrite Hrun|].
    unfold mset, hmset, hset, super, perform.
    split; [|split].
    + rewrite (bind_return _ _ m) by now rewrite Hrun. reflexivity.
    + intros name. rewrite (bind_return _ _ m) by now rewrite Hrun. reflexivity.
    + intros name key value Hne. destruct d as [|kv d]; [congruence|].
      cbn [truthy or_empty].
      rewrite (bind_return _ _ m) by now rewrite Hrun. reflexivity.
Qed.

(** Claim C9: given anything but a dict, mset and hmset raise
    [ValueError] at once: no encoding event, no call to the store. *)
Theorem bulk_set_rejects_non_mapping (name : pystr) (mapping : pyval) :
  (forall d, mapping <> VDict d) ->
  mset R mapping
  = mkM [] (Raise (ValueError "mapping must be a python dictionary")) /\
  hmset R name mapping
  = mkM [] (Raise (ValueError "mapping must be a python dictionary")).
Proof.
  intros Hm. destruct mapping; try (split; reflexivity).
  exfalso. now apply (Hm d).
Qed.

End BulkSet.

Lemma bulk_set_encodes_values_only_witness :
  exists m,
    outcome (convert_set_mapping_dic (P := MiniPickle.pickle) mixed_mapping)
    = Return m /\
    keys_of m = keys_of mixed_mapping.
Proof.
  set (d := mixed_mapping).
  assert (Hnd : NoDup (keys_of d)).
  { repeat constructor; cbn; intuition discriminate. }
  destruct (@bulk_set_encodes_values_only MiniPickle.pickle
              (fixed_redis None []) d Hnd) as [_ [Hex Hrest]].
  destruct Hex as [m Hm].
  - repeat constructor.
  - exists m. split; [exact Hm|]. exact (proj1 (Hrest m Hm)).
Defined.

Lemma bulk_set_rejects_non_mapping_witness :
  mset (P := MiniPickle.pickle) (fixed_redis None []) (VList [VInt 1])
  = mkM [] (Raise (ValueError "mapping must be a python dictionary")).
Proof.
  refine (proj1 (@bulk_set_rejects_non_mapping MiniPickle.pickle
                   (fixed_redis None []) (text "h") (VList [VInt 1]) _)).
  intros d H. discriminate H.
Defined.

(* ================================================================= *)
(** ** hgetall *)

Section Hgetall.
Context {P : Pickle}.
Variable R : Redis.
Variable pickle_first : bool.

Lemma field_outcome (kv : bytes * bytes) (kv' : pystr * pyval) :
  outcome (k <- bytes_decode (fst kv) ;;
           v <- convert_get_type (Some (snd kv)) pickle_first ;;
           ret (k, v)) = Return kv'
  <-> decoded_field pickle_first kv kv'.
Proof.
  unfold decoded_field, Decode.
  generalize (convert_get_type (Some (snd kv)) pickle_first). intros m.
  cbn. destruct (Utf8.decode (fst kv)) as [s|]; cbn.
  - destruct (outcome m) as [v|e];
      cbn; destruct kv' as [k' v']; cbn; split.
    + intros H. injection H as <- <-. now split.
    + intros [H1 H2]. injection H1 as <-. injection H2 as <-. reflexivity.
    + discriminate.
    + intros [_ H]. discriminate H.
  - split; [discriminate|]. intros [H _]. discriminate H.
Qed.

(** A field whose name is no valid UTF-8 raises at the name: the
    decoding attempt is the only event, the value is not looked at. *)
Lemma field_bad_name (kv : bytes * bytes) :
  Utf8.decode (fst kv) = None ->
  (k <- bytes_decode (fst kv) ;;
   v <- convert_get_type (Some (snd kv)) pickle_first ;;
   ret (k, v))
  = mkM [Utf8Decode (fst kv)] (Raise UnicodeDecodeError).
Proof. intros H. cbn. now rewrite H. Qed.

Lemma decoded_fields_names_distinct (d : dict bytes bytes) (m : dict pystr pyval) :
  Forall2 (decoded_field pickle_first) d m ->
  NoDup (keys_of d) -> NoDup (keys_of m).
Proof.
  intros H. apply (Forall2_NoDup (fun (k : bytes) (k' : pystr) => Utf8.decode k = Some k')).
  - intros a a' b. apply Utf8Facts.decode_inj.
  - clear - H. induction H as [|kv kv' d m [Hk _] _ IH]; constructor; auto.
Qed.

(** Claim C10: hgetall returns exactly the mapping that pairs, field by
    field and in place, the name decoded as UTF-8 with Decode of the
    value under the caller's hint; a field name that is no valid UTF-8
    makes hgetall raise and never return, and when that field is
    reached the exception is [UnicodeDecodeError], raised right after
    the decoding attempt on the name. *)
Theorem hgetall_field_names_strict (name : pystr) (d : dict bytes bytes) :
  redis_hgetall R name = Return d ->
  NoDup (keys_of d) ->
  (forall m, outcome (hgetall R name pickle_first) = Return m
             <-> Forall2 (decoded_field pickle_first) d m) /\
  (forall pre k v post,
      d = pre ++ (k, v) :: post ->
      Forall (fun kv => exists kv', decoded_field pickle_first kv kv') pre ->
      Utf8.decode k = None ->
      outcome (hgetall R name pickle_first) = Raise UnicodeDecodeError /\
      exists t, trace (hgetall R name pickle_first) = t ++ [Utf8Decode k]) /\
  ((exists k, In k (keys_of d) /\ Utf8.decode k = None) ->
   returns (outcome (hgetall R name pickle_first)) = false).
Proof.
  intros Hd Hnd. unfold hgetall. rewrite super_bind, Hd. cbn [outcome trace].
  unfold dict_comp.
  set (field := fun kv : bytes * bytes =>
                  k <- bytes_decode (fst kv) ;;
                  v <- convert_get_type (Some (snd kv)) pickle_first ;;
                  ret (k, v)).
  assert (Hiff : forall m, outcome (dict_comp_from field d []) = Return m
                           <-> Forall2 (decoded_field pickle_first) d m).
  { intros m. split.
    - intros H. pose proof H as H0.
      apply dict_comp_from_inv in H0. destruct H0 as [kvs Hkvs].
      assert (Hrel : Forall2 (decoded_field pickle_first) d kvs).
      { clear - Hkvs. induction Hkvs; constructor; auto. now apply field_outcome. }
      rewrite (dict_comp_from_returns field d kvs Hkvs) in H.
      + cbn in H. injection H as <-. exact Hrel.
      + apply (decoded_fields_names_distinct _ _ Hrel Hnd).
    - intros H. rewrite (dict_comp_from_returns field d m).
      + reflexivity.
      + clear - H. induction H; constructor; auto. now apply field_outcome.
      + apply (decoded_fields_names_distinct _ _ H Hnd). }
  split; [exact Hiff|]. split.
  - intros pre k v post -> Hpre Hk.
    rewrite (dict_comp_from_raises field pre (k, v) post UnicodeDecodeError).
    + cbn [outcome trace]. split; [reflexivity|].
      unfold field at 2. rewrite (field_bad_name (k, v) Hk). cbn [trace fst].
      exists (StoreCall (SuperHgetall name)
                :: flat_map (fun a => trace (field a)) pre).
      reflexivity.
    + clear - Hpre. induction Hpre as [|kv pre [kv' Hkv] _ IH]; constructor; auto.
      apply field_outcome in Hkv. unfold field. now rewrite Hkv.
    + unfold field. now rewrite (field_bad_name (k, v) Hk).
  - intros [k [Hin Hk]].
    destruct (outcome (dict_comp_from field d [])) as [m|e] eqn:Hm; [|reflexivity].
    exfalso. pose proof (proj1 (Hiff m) eq_refl) as Hrel.
    clear - Hrel Hin Hk. rename Hrel into Hm.
    induction Hm as [|kv kv' d m [Hkv _] _ IH]; [destruct Hin|].
    destruct Hin as [<-|Hin]; [congruence|auto].
Qed.

End Hgetall.

Lemma hgetall_field_names_strict_witness :
  outcome (hgetall (P := MiniPickle.pickle)
             (fixed_redis None hash_with_binary_name) (text "h") false)
  = Raise UnicodeDecodeError.
Proof.
  set (d := hash_with_binary_name).
  assert (Hnd : NoDup (keys_of d)).
  { repeat constructor; cbn; intuition discriminate. }
  destruct (@hgetall_field_names_strict MiniPickle.pickle (fixed_redis None d)
              false (text "h") d eq_refl Hnd) as [_ [H _]].
  refine (proj1 (H [(blit "ok", blit "v")] [xff] (blit "w") [] eq_refl _ eq_refl)).
  constructor; [|constructor].
  exists (text "ok", VStr (text "v")). split; reflexivity.
Defined.

(* ================================================================= *)
(** ** The NumPy array codec *)

Module NpFacts.
Import Np.

Lemma u32_roundtrip (n : N) :
  fits_u32 n = true ->
  u32_of_be (byte_of_N (n / 16777216)) (byte_of_N ((n / 65536) mod 256))
            (byte_of_N ((n / 256) mod 256)) (byte_of_N (n mod 256)) = n.
Proof.
  unfold fits_u32, u32_of_be. intros H. apply N.ltb_lt in H.
  rewrite !to_N_byte_of_N by lia. lia.
Qed.

Lemma u32_be_length (n : N) : List.length (u32_be n) = 4%nat.
Proof. reflexivity. Qed.

(** Unpacking the first 16 bytes of a packed header, whatever follows
    it, yields the four fields. *)
Lemma unpack_pack (a b c d : N) (rest : bytes) :
  fits_u32 a = true -> fits_u32 b = true ->
  fits_u32 c = true -> fits_u32 d = true ->
  struct_pack_IIII a b c d
  = Return (u32_be a ++ u32_be b ++ u32_be c ++ u32_be d) /\
  struct_unpack_IIII
    (firstn 16 ((u32_be a ++ u32_be b ++ u32_be c ++ u32_be d) ++ rest))
  = Return (a, b, c, d).
Proof.
  intros Ha Hb Hc Hd. split.
  - unfold struct_pack_IIII. now rewrite Ha, Hb, Hc, Hd.
  - cbv [u32_be app firstn struct_unpack_IIII].
    now rewrite !u32_roundtrip.
Qed.

Lemma frombuffer_after_header (hdr dat : bytes) (dt : np_dtype) (sz : N) :
  List.length hdr = 16%nat ->
  dt_itemsize dt <> 0 ->
  N.of_nat (List.length dat) = dt_itemsize dt * sz ->
  frombuffer (hdr ++ dat) 16 dt
  = Return {| dtype := dt; shape := [sz]; data := dat |}.
Proof.
  intros Hh Hi Hd. unfold frombuffer.
  rewrite length_app, Hh.
  replace (16 + List.length dat <? 16)%nat with false
    by (symmetry; apply Nat.ltb_ge; lia).
  replace (dt_itemsize dt =? 0) with false by (symmetry; now apply N.eqb_neq).
  replace (16 + List.length dat - 16)%nat with (List.length dat) by lia.
  rewrite Hd.
  replace (dt_itemsize dt * sz) with (sz * dt_itemsize dt) by lia.
  rewrite N.Div0.mod_mul, N.eqb_refl, N.div_mul by assumption.
  rewrite <- Hh, skipn_app, skipn_all, Nat.sub_diag. reflexivity.
Qed.

Section Roundtrip.
Variable typeDict : N -> option np_dtype.

Lemma serialize_np_header (a : ndarray) (d1 d2 d3 : N) :
  header_dims (shape a) = (d1, d2, d3) ->
  (1 <= List.length (shape a) <= 3)%nat ->
  fits_u32 (dt_num (dtype a)) = true ->
  fits_u32 d1 = true -> fits_u32 d2 = true -> fits_u32 d3 = true ->
  serialize_np a
  = Return ((u32_be (dt_num (dtype a)) ++ u32_be d1 ++ u32_be d2 ++ u32_be d3)
            ++ data a).
Proof.
  intros Hdims Hlen Hn H1 H2 H3. unfold serialize_np, tobytes.
  destruct (shape a) as [|s0 [|s1 [|s2 [|s3 shp]]]]; cbn in Hlen; try lia;
    cbn [header_dims] in Hdims; injection Hdims as <- <- <-;
    cbn [bind result_monad];
    rewrite (proj1 (unpack_pack _ _ _ _ [] Hn H1 H2 H3)); reflexivity.
Qed.

Lemma unserialize_np_header (dt : np_dtype) (d1 d2 d3 : N) (dat : bytes) :
  typeDict (dt_num dt) = Some dt ->
  dt_itemsize dt <> 0 ->
  fits_u32 (dt_num dt) = true ->
  fits_u32 d1 = true -> fits_u32 d2 = true -> fits_u32 d3 = true ->
  forall sz,
    N.of_nat (List.length dat) = dt_itemsize dt * sz ->
    unserialize_np typeDict
      ((u32_be (dt_num dt) ++ u32_be d1 ++ u32_be d2 ++ u32_be d3) ++ dat)
    = let np_array := {| dtype := dt; shape := [sz]; data := dat |} in
      if negb (d3 =? 0) then reshape np_array [d1; d2; d3]
      else if negb (d2 =? 0) then reshape np_array [d1; d2]
      else Return np_array.
Proof.
  intros Ht Hi Hn H1 H2 H3 sz Hsz. unfold unserialize_np.
  rewrite (proj2 (unpack_pack _ _ _ _ dat Hn H1 H2 H3)).
  cbn [bind result_monad]. unfold typeDict_getitem. rewrite Ht.
  rewrite (frombuffer_after_header _ _ dt sz); auto.
Qed.

(** Claim C6, amended: an array of shape [(n,)], [(n, m)] with [m]
    not 0 or [(n, m, p)] with [p] not 0, whose element type is the
    one registered under its type number (with elements of positive
    size) and whose type number and dimensions fit 32 bits, is
    serialised as the 16-byte big-endian header of type number and
    three dimensions (the unused ones 0) followed by its element
    bytes, and unserialising that gives the array back: element type,
    shape and contents. *)
Theorem np_roundtrip (a : ndarray) :
  well_formed a ->
  trailing_dim_nonzero (shape a) ->
  typeDict (dt_num (dtype a)) = Some (dtype a) ->
  dt_itemsize (dtype a) <> 0 ->
  fits_u32 (dt_num (dtype a)) = true ->
  Forall (fun n => fits_u32 n = true) (shape a) ->
  exists d1 d2 d3 header,
    header_dims (shape a) = (d1, d2, d3) /\
    header = u32_be (dt_num (dtype a)) ++ u32_be d1 ++ u32_be d2 ++ u32_be d3 /\
    List.length header = 16%nat /\
    serialize_np a = Return (header ++ data a) /\
    unserialize_np typeDict (header ++ data a) = Return a.
Proof.
  intros Hwf Hshape Ht Hi Hn Hfits.
  destruct a as [dt shp dat]. cbn [dtype shape data] in *.
  unfold well_formed in Hwf. cbn [dtype shape data] in Hwf.
  destruct Hwf as [Hwf Hbig].
  destruct shp as [|s0 [|s1 [|s2 [|s3 shp]]]]; cbn in Hshape; try contradiction.
  - (* (n,) *)
    apply Forall_cons_iff in Hfits. destruct Hfits as [H0 _].
    exists s0, 0, 0. eexists. repeat split.
    + apply serialize_np_header; cbn; auto; lia.
    + rewrite (unserialize_np_header dt s0 0 0 dat Ht Hi Hn H0 eq_refl eq_refl
                 (size_of [s0]) Hwf).
      cbn. now rewrite N.mul_1_r.
  - (* (n, m) *)
    apply Forall_cons_iff in Hfits. destruct Hfits as [H0 Hfits].
    apply Forall_cons_iff in Hfits. destruct Hfits as [H1 _].
    exists s0, s1, 0. eexists. repeat split.
    + apply serialize_np_header; cbn; auto; lia.
    + rewrite (unserialize_np_header dt s0 s1 0 dat Ht Hi Hn H0 H1 eq_refl
                 (size_of [s0; s1]) Hwf).
      cbv zeta. rewrite N.eqb_refl. cbn [negb].
      replace (s1 =? 0) with false by (symmetry; now apply N.eqb_neq).
      cbn [negb]. unfold reshape. cbn [shape dtype data].
      replace (size_of [s0; s1] =? size_of [size_of [s0; s1]]) with true;
        [now rewrite Hbig|].
      symmetry. apply N.eqb_eq. cbn [size_of fold_right]. lia.
  - (* (n, m, p) *)
    apply Forall_cons_iff in Hfits. destruct Hfits as [H0 Hfits].
    apply Forall_cons_iff in Hfits. destruct Hfits as [H1 Hfits].
    apply Forall_cons_iff in Hfits. destruct Hfits as [H2 _].
    exists s0, s1, s2. eexists. repeat split.
    + apply serialize_np_header; cbn; auto; lia.
    + rewrite (unserialize_np_header dt s0 s1 s2 dat Ht Hi Hn H0 H1 H2
                 (size_of [s0; s1; s2]) Hwf).
      cbv zeta.
      replace (s2 =? 0) with false by (symmetry; now apply N.eqb_neq).
      cbn [negb]. unfold reshape. cbn [shape dtype data].
      replace (size_of [s0; s1; s2] =? size_of [size_of [s0; s1; s2]]) with true;
        [now rewrite Hbig|].
      symmetry. apply N.eqb_eq. cbn [size_of fold_right]. lia.
Qed.

End Roundtrip.

(** Claim C7: an array of more than three dimensions is refused with
    [ValueError]; nothing is produced. *)
Theorem serialize_np_refuses_4d (a : ndarray) :
  (3 < List.length (shape a))%nat ->
  serialize_np a
  = Raise (ValueError "Redis can only store 1D, 2D, and 3D NumPy arrays.").
Proof.
  intros H. unfold serialize_np.
  destruct (shape a) as [|s0 [|s1 [|s2 [|s3 shp]]]]; cbn in H; try lia.
  reflexivity.
Qed.

End NpFacts.

Lemma np_roundtrip_witness :
  exists header,
    Np.serialize_np array_2x3 = Return (header ++ Np.data array_2x3) /\
    Np.unserialize_np sample_typeDict (header ++ Np.data array_2x3)
    = Return array_2x3.
Proof.
  set (a := array_2x3).
  destruct (@NpFacts.np_roundtrip sample_typeDict a) as (d1 & d2 & d3 & h & H);
    try reflexivity.
  - split; reflexivity.
  - cbn. discriminate.
  - cbn. discriminate.
  - repeat constructor.
  - exists h. destruct H as (_ & _ & _ & Hs & Hu). split; assumption.
Defined.

Lemma serialize_np_refuses_4d_witness :
  Np.serialize_np
    {| Np.dtype := uint8; Np.shape := [1; 1; 1; 1]; Np.data := [x07] |}
  = Raise (ValueError "Redis can only store 1D, 2D, and 3D NumPy arrays.").
Proof.
  apply NpFacts.serialize_np_refuses_4d. cbn. lia.
Defined.

(** Claim C6, as stated, fails: an empty array of shape [(2, 0)] is
    serialised with the header fields (12, 2, 0, 0) and comes back with
    shape [(0,)], because a dimension 0 reads as an unused one. *)
Lemma np_roundtrip_loses_empty_shape :
  Np.well_formed array_2x0 /\
  Np.serialize_np array_2x0 = Return header_2x0 /\
  Np.unserialize_np sample_typeDict header_2x0
  = Return {| Np.dtype := float64; Np.shape := [0]; Np.data := [] |} /\
  Np.shape array_2x0 <> [0].
Proof. repeat split. discriminate. Qed.

(** With a last dimension 0 of three, the bytes cannot even be reshaped:
    shape [(2, 3, 0)] is read back as the request for shape [(2, 3)]. *)
Lemma np_roundtrip_raises_on_empty_3d :
  exists encoded,
    Np.serialize_np array_2x3x0 = Return encoded /\
    Np.unserialize_np sample_typeDict encoded
    = Raise (ValueError "cannot reshape array").
Proof. eexists. split; reflexivity. Qed.

(* ################################################################# *)
(** * Part III: further properties of the code *)

(* ================================================================= *)
(** ** convert_get_type and convert_set_type *)

(** Decode raises exactly when the deserialisation attempt it makes
    raises an exception that is no [PickleError]; that exception is the
    one raised.  A failed UTF-8 attempt never leaves the function. *)
Theorem decode_raises_only_from_loads {P : Pickle} (b : bytes) (hint : bool)
    (e : exn) :
  Decode (Some b) hint = Raise e <->
  loads b = Raise e /\ is_PickleError e = false /\
  (hint = true \/ Utf8.decode b = None).
Proof.
  unfold Decode. destruct hint.
  - rewrite convert_get_type_pickle_first.
    destruct (loads b) as [v|e0] eqn:Hl; cbn.
    + split; [discriminate|intros [H _]; discriminate H].
    + destruct (is_PickleError e0) eqn:Hc; cbn.
      * destruct (Utf8.decode b); split; try discriminate;
          intros [H [Hn _]]; injection H as ->; congruence.
      * split.
        -- intros H. injection H as ->. auto.
        -- intros [H _]. exact H.
  - rewrite convert_get_type_text_first.
    destruct (Utf8.decode b) as [s|]; cbn.
    + split; [discriminate|]. intros [_ [_ [H|H]]]; discriminate H.
    + unfold after_loads. destruct (loads b) as [v|e0] eqn:Hl.
      * split; [discriminate|intros [H _]; discriminate H].
      * destruct (is_PickleError e0) eqn:Hc.
        -- split; [discriminate|]. intros [H [Hn _]]. injection H as ->. congruence.
        -- split.
           ++ intros H. injection H as ->. auto.
           ++ intros [H _]. exact H.
Qed.

(** Decode makes at most one deserialisation attempt and at most one
    UTF-8 attempt, both on the bytes it was given, and none on [None]. *)
Theorem decode_never_retries {P : Pickle} (encoded : option bytes) (hint : bool) :
  match encoded with
  | None => trace (convert_get_type encoded hint) = []
  | Some b =>
      let t := trace (convert_get_type encoded hint) in
      if hint
      then t = [PickleLoads b] \/ t = [PickleLoads b; Utf8Decode b]
      else t = [Utf8Decode b] \/ t = [Utf8Decode b; PickleLoads b]
  end.
Proof.
  destruct encoded as [b|]; [|reflexivity]. cbv zeta. destruct hint.
  - rewrite convert_get_type_pickle_first.
    destruct (loads b) as [v|e]; [now left|].
    destruct (is_PickleError e); [now right|now left].
  - rewrite convert_get_type_text_first.
    destruct (Utf8.decode b); [now left|now right].
Qed.

(** The hint changes the result only for bytes that are valid UTF-8 and
    on which deserialisation does not fail with a [PickleError]: on bytes
    that are no valid UTF-8, and on bytes whose deserialisation fails
    with a [PickleError], both hints give the same result. *)
Theorem decode_hint_irrelevant {P : Pickle} (b : bytes) :
  Utf8.decode b = None \/
  (exists e, loads b = Raise e /\ is_PickleError e = true) ->
  Decode (Some b) true = Decode (Some b) false.
Proof.
  unfold Decode.
  rewrite convert_get_type_pickle_first, convert_get_type_text_first.
  unfold after_loads. intros [Hd|[e [Hl Hc]]].
  - rewrite Hd. destruct (loads b) as [v|e]; [reflexivity|].
    destruct (is_PickleError e); reflexivity.
  - rewrite Hl, Hc. destruct (Utf8.decode b); reflexivity.
Qed.

Lemma decode_hint_irrelevant_witness :
  Decode (P := MiniPickle.pickle) (Some pickled_42) true
  = Decode (P := MiniPickle.pickle) (Some pickled_42) false.
Proof.
  apply (@decode_hint_irrelevant MiniPickle.pickle pickled_42).
  left. reflexivity.
Defined.

(** With the hint off, a pickled value comes back as itself when its
    pickle is no valid UTF-8, and as the text of its pickle when the
    pickle is valid UTF-8. *)
Theorem pickled_value_text_first {P : Pickle} (v : pyval) (b : bytes) :
  is_str v = false ->
  dumps v = Return b ->
  loads b = Return v ->
  Encode v = Return b /\
  Decode (Some b) false =
  match Utf8.decode b with
  | Some s => Return (VStr s)
  | None => Return v
  end.
Proof.
  intros Hv Hd Hl. unfold Encode, Decode.
  rewrite (convert_set_type_other _ Hv), Hd, convert_get_type_text_first.
  unfold after_loads. rewrite Hl. split; [reflexivity|].
  destruct (Utf8.decode b); reflexivity.
Qed.

Lemma pickled_value_text_first_witness :
  Decode (P := MiniPickle.pickle) (Some pickled_42) false = Return (VInt 42).
Proof.
  exact (proj2 (@pickled_value_text_first MiniPickle.pickle (VInt 42) pickled_42
                  eq_refl eq_refl eq_refl)).
Defined.

(** Bytes that start with a byte in 0x80..0xBF are no valid UTF-8. *)
Lemma utf8_rejects_continuation_lead (b0 : byte) (rest : bytes) :
  0x80 <= to_N b0 < 0xC0 -> Utf8.decode (b0 :: rest) = None.
Proof.
  intros [H1 H2]. rewrite Utf8Facts.decode_cons. cbv zeta.
  replace (to_N b0 <? 0x80) with false by (symmetry; apply N.ltb_ge; lia).
  replace (to_N b0 <? 0xC0) with true by (symmetry; apply N.ltb_lt; lia).
  reflexivity.
Qed.

(** A pickle that starts with the protocol marker 0x80 (protocol 2 and
    later) is never taken for text: the value comes back under either
    hint. *)
Theorem marked_pickle_roundtrip {P : Pickle} (v : pyval) (rest : bytes)
    (hint : bool) :
  is_str v = false ->
  dumps v = Return (x80 :: rest) ->
  loads (x80 :: rest) = Return v ->
  Encode v = Return (x80 :: rest) /\
  Decode (Some (x80 :: rest)) hint = Return v.
Proof.
  intros Hv Hd Hl. split.
  - unfold Encode. now rewrite (convert_set_type_other _ Hv), Hd.
  - unfold Decode. destruct hint.
    + now rewrite convert_get_type_pickle_first, Hl.
    + rewrite convert_get_type_text_first, utf8_rejects_continuation_lead.
      * unfold after_loads. now rewrite Hl.
      * cbn. lia.
Qed.

Lemma marked_pickle_roundtrip_witness :
  Decode (P := MiniPickle.pickle) (Some pickled_none) false = Return VNone.
Proof.
  exact (proj2 (@marked_pickle_roundtrip MiniPickle.pickle VNone
                  [x04; x4e; x2e] false eq_refl eq_refl eq_refl)).
Defined.

(** Encode fails in two ways only: the serialiser refuses a value that is
    no string, and its exception is passed on unchanged; or a string holds
    a code point that has no UTF-8 encoding. *)
Theorem encode_failures {P : Pickle} (v : pyval) (e : exn) :
  Encode v = Raise e <->
  (is_str v = false /\ dumps v = Raise e) \/
  (exists s, v = VStr s /\ Utf8.encode s = None /\ e = UnicodeEncodeError).
Proof.
  unfold Encode. destruct (is_str v) eqn:Hv.
  - destruct v; try discriminate Hv. cbn.
    destruct (Utf8.encode s) eqn:He; split.
    + discriminate.
    + intros [[H _]|[s' [Hs [Hn _]]]]; [discriminate H|].
      injection Hs as <-. congruence.
    + intros H. injection H as <-. right. eauto.
    + intros [[H _]|[s' [_ [_ ->]]]]; [discriminate H|reflexivity].
  - rewrite (convert_set_type_other _ Hv). cbn.
    destruct (dumps v) as [b|e0]; cbn; split.
    + discriminate.
    + intros [[_ H]|[s [-> _]]]; discriminate.
    + intros H. injection H as ->. now left.
    + intros [[_ H]|[s [-> _]]]; [exact H|discriminate Hv].
Qed.


(* ================================================================= *)
(** ** Bulk set: failures, and hset's arguments *)

Lemma convert_set_type_no_store_call {P : Pickle} (v : pyval) (c : command) :
  ~ In (StoreCall c) (trace (convert_set_type v)).
Proof.
  destruct (is_str v) eqn:Hv.
  - destruct v; try discriminate Hv. cbn. auto.
  - rewrite (convert_set_type_other _ Hv). cbn. intros [H|[]]. discriminate H.
Qed.

Lemma convert_set_mapping_dic_raises {P : Pickle} (pre : dict pystr pyval)
    (k : pystr) (v : pyval) (post : dict pystr pyval) (e : exn) :
  Forall (fun kv => returns (outcome (convert_set_type (snd kv))) = true) pre ->
  outcome (convert_set_type v) = Raise e ->
  convert_set_mapping_dic (pre ++ (k, v) :: post)
  = mkM (flat_map (fun kv => trace (convert_set_type (snd kv))) pre
         ++ trace (convert_set_type v))
        (Raise e).
Proof.
  intros Hpre Hv. unfold convert_set_mapping_dic, dict_comp.
  rewrite (dict_comp_from_raises _ pre (k, v) post e).
  - rewrite item_trace, (flat_map_ext _ _ item_trace). reflexivity.
  - clear - Hpre. induction Hpre as [|kv pre Hkv _ IH]; constructor; auto.
    cbn. destruct (outcome (convert_set_type (snd kv))); [reflexivity|discriminate].
  - cbn. now rewrite Hv.
Qed.

Lemma encoding_trace_no_store_call {P : Pickle} (d : dict pystr pyval)
    (c : command) :
  ~ In (StoreCall c) (flat_map (fun kv => trace (convert_set_type (snd kv))) d).
Proof.
  intros H. apply in_flat_map in H. destruct H as [kv [_ H]].
  exact (convert_set_type_no_store_call _ _ H).
Qed.

(** When the encoding of a value of the mapping raises, mset, hmset and
    hset raise that exception, the values behind it are not encoded, and
    the store is not called: nothing is written. *)
Theorem bulk_set_failure_writes_nothing {P : Pickle} (R : Redis)
    (name : pystr) (key : option pystr) (value : pyval)
    (pre : dict pystr pyval) (k : pystr) (v : pyval) (post : dict pystr pyval)
    (e : exn) :
  Forall (fun kv => returns (outcome (convert_set_type (snd kv))) = true) pre ->
  outcome (convert_set_type v) = Raise e ->
  let d := pre ++ (k, v) :: post in
  let t := flat_map (fun kv => trace (convert_set_type (snd kv))) pre
           ++ trace (convert_set_type v) in
  mset R (VDict d) = mkM t (Raise e) /\
  hmset R name (VDict d) = mkM t (Raise e) /\
  hset R name key value (Some d) = mkM t (Raise e) /\
  forall c, ~ In (StoreCall c) t.
Proof.
  intros Hpre Hv d t.
  pose proof (convert_set_mapping_dic_raises pre k v post e Hpre Hv) as Hrun.
  fold d in Hrun. fold t in Hrun.
  assert (Ho : outcome (convert_set_mapping_dic d) = Raise e) by now rewrite Hrun.
  assert (Ht : trace (convert_set_mapping_dic d) = t) by now rewrite Hrun.
  repeat split.
  - unfold mset. now rewrite (bind_raise _ _ e Ho), Ht.
  - unfold hmset. now rewrite (bind_raise _ _ e Ho), Ht.
  - unfold hset. replace (truthy (Some d)) with true
      by (unfold d; destruct pre; reflexivity).
    cbn [or_empty]. now rewrite (bind_raise _ _ e Ho), Ht.
  - intros c Hin. unfold t in Hin. apply in_app_or in Hin. destruct Hin as [Hin|Hin].
    + exact (encoding_trace_no_store_call _ _ Hin).
    + exact (convert_set_type_no_store_call _ _ Hin).
Qed.

Lemma bulk_set_failure_writes_nothing_witness :
  mset (P := MiniPickle.pickle) (fixed_redis None []) (VDict mapping_with_list)
  = mkM [PickleDumps (VList [])] (Raise PicklingError).
Proof.
  refine (proj1 (@bulk_set_failure_writes_nothing MiniPickle.pickle
                   (fixed_redis None []) (text "h") None VNone
                   [(text "a", VStr (text "x"))] (text "b") (VList []) []
                   PicklingError _ eq_refl)).
  repeat constructor.
Defined.

Lemma convert_set_mapping_dic_no_store_call {P : Pickle} (d : dict pystr pyval)
    (c : command) :
  ~ In (StoreCall c) (trace (convert_set_mapping_dic d)).
Proof.
  unfold convert_set_mapping_dic, dict_comp.
  generalize (@nil (pystr * redis_value)) as acc.
  induction d as [|kv d IH]; intros acc Hin; [destruct Hin|].
  rewrite dict_comp_from_cons in Hin.
  destruct (outcome (e <- convert_set_type (snd kv) ;; ret (fst kv, e)))
    as [kv'|e] eqn:Hk; cbn [trace] in Hin.
  - apply in_app_or in Hin. destruct Hin as [Hin|Hin]; [|exact (IH _ Hin)].
    rewrite item_trace in Hin. exact (convert_set_type_no_store_call _ _ Hin).
  - rewrite item_trace in Hin. exact (convert_set_type_no_store_call _ _ Hin).
Qed.

(** hset with a mapping that is not empty drops [key] and [value]: the
    value is not encoded and no single field is sent.  A mapping that is
    empty counts as no mapping: the single field is set. *)
Theorem hset_mapping_precedence {P : Pickle} (R : Redis) (name : pystr)
    (key key' : option pystr) (value value' : pyval) (d : dict pystr pyval) :
  d <> [] ->
  hset R name key value (Some d) = hset R name key' value' (Some d) /\
  (forall k e, ~ In (StoreCall (SuperHset name k e))
                    (trace (hset R name key value (Some d)))) /\
  hset R name key value (Some []) = hset R name key value None.
Proof.
  intros Hd. destruct d as [|kv d]; [congruence|].
  split; [reflexivity|]. split; [|reflexivity].
  intros k e Hin. unfold hset in Hin. cbn [truthy or_empty] in Hin.
  destruct (outcome (convert_set_mapping_dic (kv :: d))) as [m|e0] eqn:Ho.
  - rewrite (bind_return _ _ m Ho) in Hin. cbn [trace super perform] in Hin.
    apply in_app_or in Hin. destruct Hin as [Hin|[Hin|[]]]; [|discriminate Hin].
    exact (convert_set_mapping_dic_no_store_call _ _ Hin).
  - rewrite (bind_raise _ _ e0 Ho) in Hin. cbn [trace] in Hin.
    exact (convert_set_mapping_dic_no_store_call _ _ Hin).
Qed.

Lemma hset_mapping_precedence_witness :
  hset (P := MiniPickle.pickle) (fixed_redis None []) (text "h")
    (Some (text "f")) (VList []) (Some mixed_mapping)
  = hset (P := MiniPickle.pickle) (fixed_redis None []) (text "h")
      None VNone (Some mixed_mapping).
Proof.
  refine (proj1 (@hset_mapping_precedence MiniPickle.pickle (fixed_redis None [])
                   (text "h") (Some (text "f")) None (VList []) VNone
                   mixed_mapping _)).
  discriminate.
Defined.

(* ================================================================= *)
(** ** The other methods: reads *)

Lemma forward_bind {A B} (c : call) (answer : result A) (f : A -> Op B) :
  (x <- forward c answer ;; f x) =
  match answer with
  | Return a => mkOp (Forwarded c :: steps (f a)) (ended (f a))
  | Raise e => mkOp [Forwarded c] (Raise e)
  end.
Proof. cbn. destruct answer; reflexivity. Qed.

Lemma codec_bind_forward {A B} (m : M A) (c : A -> call) (answer : A -> result B) :
  (x <- codec m ;; forward (c x) (answer x)) =
  match outcome m with
  | Return a => mkOp (map Codec (trace m) ++ [Forwarded (c a)]) (answer a)
  | Raise e => mkOp (map Codec (trace m)) (Raise e)
  end.
Proof. cbn. destruct (outcome m); reflexivity. Qed.

(** A list comprehension returns exactly the list of what its elements
    return, position by position. *)
Lemma list_comp_returns_iff {A B} (f : A -> M B) (xs : list A) (ys : list B) :
  outcome (list_comp f xs) = Return ys <->
  Forall2 (fun x y => outcome (f x) = Return y) xs ys.
Proof.
  revert ys. induction xs as [|x xs IH]; intros ys.
  - cbn. split.
    + intros H. injection H as <-. constructor.
    + intros H. inversion H. reflexivity.
  - rewrite list_comp_cons.
    destruct (outcome (f x)) as [y|e] eqn:Hx; cbn [outcome].
    + destruct (outcome (list_comp f xs)) as [ys'|e] eqn:Hxs; split.
      * intros H. injection H as <-. constructor; [exact Hx|]. now apply IH.
      * intros H. inversion H as [|? y0 ? ys0 Hy Hr]; subst.
        apply IH in Hr. injection Hr as <-.
        rewrite Hx in Hy. injection Hy as <-. reflexivity.
      * discriminate.
      * intros H. inversion H as [|? y0 ? ys0 Hy Hr]; subst.
        apply IH in Hr. discriminate Hr.
    + split; [discriminate|].
      intros H. inversion H as [|? y0 ? ys0 Hy Hr]; subst. congruence.
Qed.

(** The first element that raises ends the comprehension with its
    exception; the elements behind it are not evaluated. *)
Lemma list_comp_raises {A B} (f : A -> M B) (pre : list A) (x : A)
    (post : list A) (e : exn) :
  Forall (fun a => returns (outcome (f a)) = true) pre ->
  outcome (f x) = Raise e ->
  list_comp f (pre ++ x :: post)
  = mkM (flat_map (fun a => trace (f a)) pre ++ trace (f x)) (Raise e).
Proof.
  intros Hpre Hx. induction Hpre as [|a pre Ha _ IH].
  - cbn [app flat_map]. rewrite list_comp_cons, Hx. reflexivity.
  - rewrite <- app_comm_cons, list_comp_cons.
    destruct (outcome (f a)); [|discriminate Ha].
    rewrite IH. cbn [trace outcome flat_map]. now rewrite app_assoc.
Qed.

Lemma list_comp_trace {A B} (f : A -> M B) (xs : list A) (ys : list B) :
  outcome (list_comp f xs) = Return ys ->
  trace (list_comp f xs) = flat_map (fun x => trace (f x)) xs.
Proof.
  revert ys. induction xs as [|x xs IH]; intros ys H; [reflexivity|].
  rewrite list_comp_cons in H |- *.
  destruct (outcome (f x)); [|discriminate H]. cbn [trace outcome] in *.
  destruct (outcome (list_comp f xs)) as [ys'|] eqn:Hxs; [|discriminate H].
  cbn [flat_map]. now rewrite (IH ys').
Qed.

Lemma Forall2_length_nth {A B} (R : A -> B -> Prop) (xs : list A) (ys : list B) :
  Forall2 R xs ys ->
  List.length ys = List.length xs /\
  forall i x, nth_error xs i = Some x ->
              exists y, nth_error ys i = Some y /\ R x y.
Proof.
  induction 1 as [|x y xs ys Hxy _ [IHl IHn]].
  - split; [reflexivity|]. intros [|i] x H; discriminate H.
  - split; [cbn; now rewrite IHl|].
    intros [|i] x0 H; cbn in H |- *.
    + injection H as <-. eauto.
    + now apply IHn.
Qed.

Section Reads.
Context {P : Pickle}.
Variable R : RedisRest.
Variable pickle_first : bool.

(** A single read whose key is missing (the store answers [None])
    returns [None]; the store call is its only step. *)
Theorem read_missing_is_none (name key : pystr) (index : Z) :
  redis_get R name = Return None ->
  redis_hget R name key = Return None ->
  redis_lindex R name index = Return None ->
  get R name pickle_first = mkOp [Forwarded (SuperGet name)] (Return VNone) /\
  hget R name key pickle_first
  = mkOp [Forwarded (SuperHget name key)] (Return VNone) /\
  lindex R name index pickle_first
  = mkOp [Forwarded (SuperLindex name index)] (Return VNone).
Proof.
  intros Hg Hh Hl. unfold get, hget, lindex.
  rewrite !forward_bind, Hg, Hh, Hl. repeat split.
Qed.

Lemma codec_list_comp_ended {A} (f : A -> M pyval) (xs : list A)
    (c : call) (vs : list pyval) :
  ended (mkOp (Forwarded c :: steps (codec (list_comp f xs)))
              (ended (codec (list_comp f xs)))) = Return vs <->
  Forall2 (fun x v => outcome (f x) = Return v) xs vs.
Proof. cbn. apply list_comp_returns_iff. Qed.

(** mget and hmget return exactly the list of Decode of each answered
    element, position by position: the result is as long as the answer,
    and a missing element is [None] in its place. *)
Theorem bulk_read_positionwise (names : list pystr) (name : pystr)
    (keys : list pystr) (row : list (option bytes)) :
  redis_mget R names = Return (Some row) ->
  redis_hmget R name keys = Return (Some row) ->
  forall vs,
    (ended (mget R names pickle_first) = Return vs <->
     Forall2 (fun enc v => Decode enc pickle_first = Return v) row vs) /\
    (ended (hmget R name keys pickle_first) = Return vs <->
     Forall2 (fun enc v => Decode enc pickle_first = Return v) row vs) /\
    (Forall2 (fun enc v => Decode enc pickle_first = Return v) row vs ->
     List.length vs = List.length row /\
     forall i, nth_error row i = Some None -> nth_error vs i = Some VNone).
Proof.
  intros Hm Hh vs. unfold mget, hmget. rewrite !forward_bind, Hm, Hh.
  cbn [or_empty]. split; [apply codec_list_comp_ended|].
  split; [apply codec_list_comp_ended|].
  intros H. destruct (Forall2_length_nth _ _ _ H) as [Hlen Hnth].
  split; [exact Hlen|]. intros i Hi.
  destruct (Hnth i None Hi) as [v [Hv Hd]].
  unfold Decode in Hd. cbn in Hd. injection Hd as <-. exact Hv.
Qed.

(** hvals, lrange and hkeys return exactly the list of Decode of each
    answered element, position by position; hkeys decodes with the hint
    off. *)
Theorem listing_read_positionwise (name : pystr) (start end_ : Z)
    (members : list bytes) :
  redis_hvals R name = Return (Some members) ->
  redis_lrange R name start end_ = Return (Some members) ->
  redis_hkeys R name = Return (Some members) ->
  forall vs,
    (ended (hvals R name pickle_first) = Return vs <->
     Forall2 (fun b v => Decode (Some b) pickle_first = Return v) members vs) /\
    (ended (lrange R name start end_ pickle_first) = Return vs <->
     Forall2 (fun b v => Decode (Some b) pickle_first = Return v) members vs) /\
    (ended (hkeys R name) = Return vs <->
     Forall2 (fun b v => Decode (Some b) false = Return v) members vs).
Proof.
  intros Hv Hl Hk vs. unfold hvals, lrange, hkeys.
  rewrite !forward_bind, Hv, Hl, Hk. cbn [or_empty].
  repeat split; try apply codec_list_comp_ended;
    intros H; now apply codec_list_comp_ended in H.
Qed.

(** One element whose Decode raises makes the whole bulk read raise: the
    elements before it are lost, those behind it are not decoded. *)
Theorem bulk_read_first_failure (names : list pystr)
    (pre : list (option bytes)) (x : option bytes) (post : list (option bytes))
    (e : exn) :
  redis_mget R names = Return (Some (pre ++ x :: post)) ->
  Forall (fun enc => returns (Decode enc pickle_first) = true) pre ->
  Decode x pickle_first = Raise e ->
  mget R names pickle_first
  = mkOp (Forwarded (SuperMget names)
          :: map Codec
               (flat_map (fun enc => trace (convert_get_type enc pickle_first)) pre
                ++ trace (convert_get_type x pickle_first)))
         (Raise e).
Proof.
  intros Hm Hpre Hx. unfold mget. rewrite forward_bind, Hm. cbn [or_empty].
  now rewrite (list_comp_raises _ pre x post e Hpre Hx).
Qed.

End Reads.

Lemma read_missing_is_none_witness :
  get (P := MiniPickle.pickle) (fixed_rest None [] []) (text "k") true
  = mkOp [Forwarded (SuperGet (text "k"))] (Return VNone).
Proof.
  exact (proj1 (@read_missing_is_none MiniPickle.pickle (fixed_rest None [] [])
                  true (text "k") (text "f") 0%Z eq_refl eq_refl eq_refl)).
Defined.

Lemma bulk_read_positionwise_witness :
  ended (mget (P := MiniPickle.pickle)
           (fixed_rest None [Some (blit "a"); None; Some pickled_42] [])
           [text "k1"; text "k2"; text "k3"] false)
  = Return [VStr (text "a"); VNone; VInt 42].
Proof.
  refine (proj2 (proj1 (@bulk_read_positionwise MiniPickle.pickle
                          (fixed_rest None [Some (blit "a"); None; Some pickled_42] [])
                          false [text "k1"; text "k2"; text "k3"] (text "h") []
                          [Some (blit "a"); None; Some pickled_42]
                          eq_refl eq_refl
                          [VStr (text "a"); VNone; VInt 42])) _).
  repeat constructor.
Defined.

Lemma listing_read_positionwise_witness :
  ended (hkeys (P := MiniPickle.pickle)
           (fixed_rest None [] [blit "f1"; blit "f2"]) (text "h"))
  = Return [VStr (text "f1"); VStr (text "f2")].
Proof.
  refine (proj2 (proj2 (proj2 (@listing_read_positionwise MiniPickle.pickle
                                 (fixed_rest None [] [blit "f1"; blit "f2"])
                                 false (text "h") 0%Z (-1)%Z
                                 [blit "f1"; blit "f2"]
                                 eq_refl eq_refl eq_refl
                                 [VStr (text "f1"); VStr (text "f2")]))) _).
  repeat constructor.
Defined.

Lemma bulk_read_first_failure_witness :
  ended (mget (P := MiniPickle.pickle)
           (fixed_rest None [Some pickled_42; Some []; Some pickled_none] [])
           [text "k1"; text "k2"; text "k3"] true)
  = Raise EOFError.
Proof.
  refine (f_equal ended
            (@bulk_read_first_failure MiniPickle.pickle
               (fixed_rest None [Some pickled_42; Some []; Some pickled_none] [])
               true [text "k1"; text "k2"; text "k3"]
               [Some pickled_42] (Some []) [Some pickled_none] EOFError
               eq_refl _ eq_refl)).
  repeat constructor.
Defined.

(* ================================================================= *)
(** ** The other methods: pops *)

Section Pops.
Context {P : Pickle}.
Variable R : RedisRest.
Variable pickle_first : bool.

Lemma pop_continuation (c : call) (reply : pop_reply) (v : pyval) :
  ended (mkOp (Forwarded c ::
               steps match reply with
                     | Many l =>
                         vs <- codec (list_comp
                                 (fun value =>
                                    convert_get_type (Some value) pickle_first) l) ;;
                         ret (VList vs)
                     | One e => codec (convert_get_type e pickle_first)
                     end)
              (ended match reply with
                     | Many l =>
                         vs <- codec (list_comp
                                 (fun value =>
                                    convert_get_type (Some value) pickle_first) l) ;;
                         ret (VList vs)
                     | One e => codec (convert_get_type e pickle_first)
                     end)) = Return v
  <-> popped pickle_first reply v.
Proof.
  destruct reply as [e|l]; cbn [popped]; [reflexivity|].
  pose proof (fun vs => list_comp_returns_iff
                (fun value => convert_get_type (Some value) pickle_first) l vs)
    as Hiff.
  unfold Decode. revert Hiff.
  generalize (list_comp
                (fun value => convert_get_type (Some value) pickle_first) l).
  intros m Hiff. cbn.
  destruct (outcome m) as [vs|e] eqn:Hl; cbn; split.
  - intros H. injection H as <-. exists vs. split; [reflexivity|].
    now apply Hiff.
  - intros [vs' [-> H]]. apply Hiff in H. injection H as <-. reflexivity.
  - discriminate.
  - intros [vs' [-> H]]. apply Hiff in H. discriminate H.
Qed.

(** spop, srandmember, lpop and rpop return Decode of the member when the
    store answers with one member (or [None], which stays [None]), and
    the list of Decode of each member when it answers with a list. *)
Theorem pop_decodes_by_answer (name : pystr) (count : option Z)
    (reply : pop_reply) :
  redis_spop R name count = Return reply ->
  redis_srandmember R name count = Return reply ->
  redis_lpop R name count = Return reply ->
  redis_rpop R name count = Return reply ->
  forall v,
    (ended (spop R name count pickle_first) = Return v
     <-> popped pickle_first reply v) /\
    (ended (srandmember R name count pickle_first) = Return v
     <-> popped pickle_first reply v) /\
    (ended (lpop R name count pickle_first) = Return v
     <-> popped pickle_first reply v) /\
    (ended (rpop R name count pickle_first) = Return v
     <-> popped pickle_first reply v).
Proof.
  intros Hs Hr Hl Hp v. unfold spop, srandmember, lpop, rpop.
  rewrite !forward_bind, Hs, Hr, Hl, Hp.
  repeat split; try apply pop_continuation;
    intros H; now apply pop_continuation in H.
Qed.

End Pops.

Lemma pop_decodes_by_answer_witness :
  ended (lpop (P := MiniPickle.pickle)
           (fixed_rest None [] [blit "a"; pickled_42]) (text "l") (Some 2%Z) false)
  = Return (VList [VStr (text "a"); VInt 42]).
Proof.
  refine (proj2 (proj1 (proj2 (proj2
            (@pop_decodes_by_answer MiniPickle.pickle
               (fixed_rest None [] [blit "a"; pickled_42]) false (text "l")
               (Some 2%Z) (Many [blit "a"; pickled_42])
               eq_refl eq_refl eq_refl eq_refl
               (VList [VStr (text "a"); VInt 42]))))) _).
  exists [VStr (text "a"); VInt 42]. split; [reflexivity|].
  repeat constructor.
Defined.

(* ================================================================= *)
(** ** The other methods: sets *)

Lemma existsb_py_eqb (x : pyval) (s : list pyval) :
  existsb (py_eqb x) s = true <->
  exists y k, In y s /\ hash_key x = Some k /\ hash_key y = Some k.
Proof.
  rewrite existsb_exists. unfold py_eqb. split.
  - intros [y [Hy H]]. destruct (hash_key x) as [a|]; [|discriminate H].
    destruct (hash_key y) as [b|] eqn:Hb; [|discriminate H].
    destruct (hkey_eq_dec a b) as [->|]; [|discriminate H].
    exists y, b. auto.
  - intros [y [k [Hy [Hx Hk]]]]. exists y. split; [exact Hy|].
    rewrite Hx, Hk. destruct (hkey_eq_dec k k); congruence.
Qed.

Lemma set_add_cases (x : pyval) (s : list pyval) :
  (existsb (py_eqb x) s = true /\ set_add x s = s) \/
  (existsb (py_eqb x) s = false /\ set_add x s = s ++ [x]).
Proof. unfold set_add. destruct (existsb (py_eqb x) s); auto. Qed.

Lemma set_add_is_pyset (x : pyval) (s : list pyval) :
  hashable x = true -> is_pyset s -> is_pyset (set_add x s).
Proof.
  intros Hx [Hnd Hh]. destruct (set_add_cases x s) as [[_ ->]|[He ->]];
    [now split|].
  split.
  - rewrite map_app. cbn. apply NoDup_app.
    + exact Hnd.
    + repeat constructor. intros [].
    + intros k Hin [<-|[]].
      apply in_map_iff in Hin. destruct Hin as [y [Hy Hin]].
      assert (Ht : existsb (py_eqb x) s = true); [|congruence].
      apply existsb_py_eqb. unfold hashable in Hx.
      destruct (hash_key x) as [k|] eqn:Hk; [|discriminate Hx].
      exists y, k. auto.
  - apply Forall_app. split; [exact Hh|]. now repeat constructor.
Qed.

Lemma set_add_In (x v : pyval) (s : list pyval) :
  In v (set_add x s) -> In v s \/ v = x.
Proof.
  destruct (set_add_cases x s) as [[_ ->]|[_ ->]]; [auto|].
  intros H. apply in_app_or in H. destruct H as [H|[H|[]]]; auto.
Qed.

Lemma set_add_incl (x v : pyval) (s : list pyval) :
  In v s -> In v (set_add x s).
Proof.
  destruct (set_add_cases x s) as [[_ ->]|[_ ->]]; [auto|].
  intros H. apply in_or_app. now left.
Qed.

Lemma set_add_has (x : pyval) (s : list pyval) :
  hashable x = true ->
  exists y, In y (set_add x s) /\ hash_key y = hash_key x.
Proof.
  intros Hx. destruct (set_add_cases x s) as [[He ->]|[_ ->]].
  - apply existsb_py_eqb in He. destruct He as [y [k [Hy [Hkx Hky]]]].
    exists y. split; [exact Hy|congruence].
  - exists x. split; [|reflexivity]. apply in_or_app. right. now left.
Qed.

Lemma set_add_length (x : pyval) (s : list pyval) :
  (List.length (set_add x s) <= S (List.length s))%nat.
Proof.
  destruct (set_add_cases x s) as [[_ ->]|[_ ->]]; [lia|].
  rewrite length_app. cbn. lia.
Qed.

Lemma set_comp_from_cons {A} (f : A -> M pyval) (x : A) (xs : list A)
    (acc : list pyval) :
  set_comp_from f (x :: xs) acc =
  match outcome (f x) with
  | Return v =>
      if hashable v
      then mkM (trace (f x) ++ trace (set_comp_from f xs (set_add v acc)))
               (outcome (set_comp_from f xs (set_add v acc)))
      else mkM (trace (f x)) (Raise TypeError)
  | Raise e => mkM (trace (f x)) (Raise e)
  end.
Proof.
  cbn. destruct (outcome (f x)) as [v|e]; [|reflexivity].
  destruct (hashable v); cbn; now rewrite ?app_nil_r.
Qed.

(** What a set comprehension returns is a set, holds what was there, and
    holds besides exactly the values of the elements, up to equality. *)
Lemma set_comp_from_spec {A} (f : A -> M pyval) (xs : list A) :
  forall acc vs,
    outcome (set_comp_from f xs acc) = Return vs ->
    is_pyset acc ->
    is_pyset vs /\
    (forall v, In v acc -> In v vs) /\
    (forall v, In v vs ->
               In v acc \/ exists x, In x xs /\ outcome (f x) = Return v) /\
    (forall x, In x xs ->
               exists v' v, outcome (f x) = Return v' /\
                            In v vs /\ hash_key v = hash_key v') /\
    (List.length vs <= List.length acc + List.length xs)%nat.
Proof.
  induction xs as [|x xs IH]; intros acc vs H Hacc.
  - cbn in H. injection H as <-.
    split; [exact Hacc|]. split; [auto|]. split; [auto|].
    split; [intros x []|lia].
  - rewrite set_comp_from_cons in H.
    destruct (outcome (f x)) as [v0|e] eqn:Hx; [|discriminate H].
    destruct (hashable v0) eqn:Hh; [|discriminate H]. cbn [outcome] in H.
    destruct (IH _ _ H (set_add_is_pyset _ _ Hh Hacc))
      as (Hset & Hincl & Hfrom & Hall & Hlen).
    split; [exact Hset|]. split; [|split; [|split]].
    + intros v Hv. apply Hincl, set_add_incl, Hv.
    + intros v Hv. destruct (Hfrom v Hv) as [Hin|[x0 [Hx0 Hv0]]].
      * apply set_add_In in Hin. destruct Hin as [Hin| ->]; [now left|].
        right. exists x. split; [now left|exact Hx].
      * right. exists x0. split; [now right|exact Hv0].
    + intros x0 [<-|Hx0].
      * destruct (set_add_has v0 acc Hh) as [y [Hy Hk]].
        exists v0, y. split; [exact Hx|]. split; [apply Hincl, Hy|exact Hk].
      * apply Hall, Hx0.
    + pose proof (set_add_length v0 acc). cbn [List.length]. lia.
Qed.

Lemma set_comp_from_unhashable {A} (f : A -> M pyval) (pre : list A) (x : A)
    (post : list A) (v : pyval) :
  Forall (fun a => exists w, outcome (f a) = Return w /\ hashable w = true) pre ->
  outcome (f x) = Return v ->
  hashable v = false ->
  forall acc, outcome (set_comp_from f (pre ++ x :: post) acc) = Raise TypeError.
Proof.
  intros Hpre Hx Hv. induction Hpre as [|a pre [w [Ha Hw]] _ IH]; intros acc.
  - cbn [app]. rewrite set_comp_from_cons, Hx, Hv. reflexivity.
  - rewrite <- app_comm_cons, set_comp_from_cons, Ha, Hw. cbn [outcome]. apply IH.
Qed.

Lemma set_comp_from_text {P : Pickle} (l : list bytes) (ss : list pystr) :
  Forall2 (fun b s => Utf8.decode b = Some s) l ss ->
  forall ss0,
    NoDup (ss0 ++ ss) ->
    set_comp_from (fun value => convert_get_type (Some value) false) l
      (map VStr ss0)
    = mkM (map Utf8Decode l) (Return (map VStr (ss0 ++ ss))).
Proof.
  induction 1 as [|b s l ss Hb _ IH]; intros ss0 Hnd.
  - cbn. now rewrite app_nil_r.
  - rewrite set_comp_from_cons, convert_get_type_text_first, Hb.
    cbn [outcome trace hashable hash_key].
    assert (Hfresh : set_add (VStr s) (map VStr ss0) = map VStr (ss0 ++ [s])).
    { destruct (set_add_cases (VStr s) (map VStr ss0)) as [[He _]|[_ ->]].
      - exfalso. apply existsb_py_eqb in He.
        destruct He as [y [k [Hy [Hk1 Hk2]]]].
        apply in_map_iff in Hy. destruct Hy as [s' [<- Hs']].
        cbn in Hk1, Hk2. assert (s' = s) by congruence. subst s'.
        apply NoDup_remove_2 in Hnd. apply Hnd, in_or_app. now left.
      - now rewrite map_app. }
    rewrite Hfresh, IH.
    + cbn [trace outcome app map]. now rewrite <- app_assoc.
    + now rewrite <- app_assoc.
Qed.

Section Sets.
Context {P : Pickle}.
Variable R : RedisRest.
Variable pickle_first : bool.

(** What smembers and sdiff return is the set of Decode of the members:
    hashable, pairwise unequal values, each one Decode of a member, with
    Decode of every member equal to one of them; sdiff decodes with the
    hint off.  Members whose values are equal are merged, so the result
    can be smaller than the answer. *)
Theorem set_read_is_set_of_decoded (name : pystr) (keys args : list pystr)
    (members : list bytes) :
  redis_smembers R name = Return (Some members) ->
  redis_sdiff R keys args = Return (Some members) ->
  forall vs,
    (ended (smembers R name pickle_first) = Return vs ->
     set_of_decoded pickle_first members vs) /\
    (ended (sdiff R keys args) = Return vs ->
     set_of_decoded false members vs).
Proof.
  intros Hm Hd vs. unfold smembers, sdiff, set_comp.
  rewrite !forward_bind, Hm, Hd. cbn [or_empty ended codec].
  assert (Hnil : is_pyset []) by (split; constructor).
  split; intros H;
    destruct (set_comp_from_spec _ _ _ _ H Hnil)
      as (Hset & _ & Hfrom & Hall & Hlen);
    (split; [exact Hset|]; split; [|split; [exact Hall|exact Hlen]]);
    intros v Hv; destruct (Hfrom v Hv) as [[]|Hx]; exact Hx.
Qed.

(** A member that decodes to a list or a dict makes smembers raise
    [TypeError]: such a value cannot be put into the set. *)
Theorem set_read_unhashable_member (name : pystr)
    (pre : list bytes) (b : bytes) (post : list bytes) (v : pyval) :
  redis_smembers R name = Return (Some (pre ++ b :: post)) ->
  Forall (fun k => exists w, Decode (Some k) pickle_first = Return w /\
                             hashable w = true) pre ->
  Decode (Some b) pickle_first = Return v ->
  hashable v = false ->
  ended (smembers R name pickle_first) = Raise TypeError.
Proof.
  intros Hm Hpre Hb Hv. unfold smembers, set_comp.
  rewrite forward_bind, Hm. cbn [or_empty ended codec].
  exact (set_comp_from_unhashable _ pre b post v Hpre Hb Hv []).
Qed.

End Sets.

(** Members that are all valid UTF-8 come back from smembers and sdiff
    (hint off) as their strings, as many as there are members. *)
Theorem set_read_text_members {P : Pickle} (R : RedisRest) (name : pystr)
    (keys args : list pystr) (members : list bytes) (ss : list pystr) :
  redis_smembers R name = Return (Some members) ->
  redis_sdiff R keys args = Return (Some members) ->
  NoDup members ->
  Forall2 (fun b s => Utf8.decode b = Some s) members ss ->
  exists vs,
    ended (smembers R name false) = Return vs /\
    ended (sdiff R keys args) = Return vs /\
    List.length vs = List.length members /\
    forall v, In v vs <-> exists s, In s ss /\ v = VStr s.
Proof.
  intros Hm Hd Hnd Hss. exists (map VStr ss).
  assert (Hnd' : NoDup ss).
  { apply (Forall2_NoDup _ _ _ (fun a a' b => @Utf8Facts.decode_inj a a' b)
             Hss Hnd). }
  unfold smembers, sdiff, set_comp.
  rewrite !forward_bind, Hm, Hd. cbn [or_empty ended codec].
  rewrite (set_comp_from_text _ _ Hss [] Hnd'). cbn [outcome app].
  repeat split.
  - rewrite length_map. symmetry.
    clear - Hss. induction Hss; cbn; congruence.
  - intros Hv. apply in_map_iff in Hv. destruct Hv as [s [<- Hs]]. eauto.
  - intros [s [Hs ->]]. now apply in_map.
Qed.

Lemma set_read_is_set_of_decoded_witness :
  set_of_decoded (P := MiniPickle.pickle) false [blit "a"; blit "b"]
    [VStr (text "a"); VStr (text "b")].
Proof.
  exact (proj1 (@set_read_is_set_of_decoded MiniPickle.pickle
                  (fixed_rest None [] [blit "a"; blit "b"]) false (text "s")
                  [text "s"] [] [blit "a"; blit "b"] eq_refl eq_refl
                  [VStr (text "a"); VStr (text "b")]) eq_refl).
Defined.

Lemma set_read_unhashable_member_witness :
  ended (smembers (P := ListPickle.pickle)
           (fixed_rest None [] [blit "a"; pickled_empty_list]) (text "s") false)
  = Raise TypeError.
Proof.
  refine (@set_read_unhashable_member ListPickle.pickle
            (fixed_rest None [] [blit "a"; pickled_empty_list]) false (text "s")
            [blit "a"] pickled_empty_list [] (VList [])
            eq_refl _ eq_refl eq_refl).
  constructor; [|constructor].
  exists (VStr (text "a")). split; reflexivity.
Defined.

Lemma set_read_text_members_witness :
  exists vs,
    ended (smembers (P := MiniPickle.pickle)
             (fixed_rest None [] [blit "a"; blit "b"]) (text "s") false)
    = Return vs /\
    List.length vs = 2%nat.
Proof.
  destruct (@set_read_text_members MiniPickle.pickle
              (fixed_rest None [] [blit "a"; blit "b"]) (text "s") [text "s"] []
              [blit "a"; blit "b"] [text "a"; text "b"] eq_refl eq_refl)
    as [vs [H1 [_ [H3 _]]]].
  - repeat constructor; cbn; intuition discriminate.
  - repeat constructor.
  - exists vs. split; [exact H1|exact H3].
Defined.

(* ================================================================= *)
(** ** The other methods: writes *)

Section Writes.
Context {P : Pickle}.
Variable R : RedisRest.

(** sadd, srem, lpush and rpush encode the values one by one, in the
    order given, and then call the store once, with the encoded values in
    that order. *)
Theorem variadic_write_encodes_in_order (name : pystr) (values : list pyval)
    (es : list redis_value) :
  Forall2 (fun v e => outcome (convert_set_type v) = Return e) values es ->
  let t := map Codec (flat_map (fun v => trace (convert_set_type v)) values) in
  sadd R name values
  = mkOp (t ++ [Forwarded (SuperSadd name es)]) (redis_sadd R name es) /\
  srem R name values
  = mkOp (t ++ [Forwarded (SuperSrem name es)]) (redis_srem R name es) /\
  lpush R name values
  = mkOp (t ++ [Forwarded (SuperLpush name es)]) (redis_lpush R name es) /\
  rpush R name values
  = mkOp (t ++ [Forwarded (SuperRpush name es)]) (redis_rpush R name es).
Proof.
  intros H t. apply list_comp_returns_iff in H.
  pose proof (list_comp_trace _ _ _ H) as Ht.
  unfold sadd, srem, lpush, rpush. rewrite !codec_bind_forward, H, Ht.
  repeat split.
Qed.

(** When the encoding of one of the values raises, sadd, srem, lpush and
    rpush raise that exception and do not call the store: none of the
    values is written. *)
Theorem variadic_write_failure (name : pystr) (pre : list pyval) (v : pyval)
    (post : list pyval) (e : exn) :
  Forall (fun a => returns (outcome (convert_set_type a)) = true) pre ->
  outcome (convert_set_type v) = Raise e ->
  let t := map Codec (flat_map (fun a => trace (convert_set_type a)) pre
                      ++ trace (convert_set_type v)) in
  sadd R name (pre ++ v :: post) = mkOp t (Raise e) /\
  srem R name (pre ++ v :: post) = mkOp t (Raise e) /\
  lpush R name (pre ++ v :: post) = mkOp t (Raise e) /\
  rpush R name (pre ++ v :: post) = mkOp t (Raise e) /\
  forall c, ~ In (Forwarded c) t.
Proof.
  intros Hpre Hv t.
  pose proof (list_comp_raises convert_set_type pre v post e Hpre Hv) as Hrun.
  unfold sadd, srem, lpush, rpush. rewrite !codec_bind_forward, Hrun.
  cbn [outcome trace]. repeat split.
  intros c Hin. apply in_map_iff in Hin. destruct Hin as [ev [Hev _]].
  discriminate Hev.
Qed.

(** When the encoding of the value raises, set, sismember, lpushx and
    rpushx raise that exception and do not call the store. *)
Theorem single_write_failure (name : pystr) (value : pyval)
    (ex px : option Z) (nx xx : bool) (e : exn) :
  outcome (convert_set_type value) = Raise e ->
  let t := map Codec (trace (convert_set_type value)) in
  set R name value ex px nx xx = mkOp t (Raise e) /\
  sismember R name value = mkOp t (Raise e) /\
  lpushx R name value = mkOp t (Raise e) /\
  rpushx R name value = mkOp t (Raise e) /\
  forall c, ~ In (Forwarded c) t.
Proof.
  intros Hv t. unfold set, sismember, lpushx, rpushx.
  rewrite !codec_bind_forward, Hv. repeat split.
  intros c Hin. apply in_map_iff in Hin. destruct Hin as [ev [Hev _]].
  discriminate Hev.
Qed.

(** What set sends for a value that is no string, read back by get with
    the hint on, is the value: when the store holds under the name the
    bytes set handed over, get returns the value set was given. *)
Theorem set_get_roundtrip_pickled (name : pystr) (v : pyval) (stored : bytes)
    (ex px : option Z) (nx xx : bool) :
  is_str v = false ->
  dumps v = Return stored ->
  loads stored = Return v ->
  redis_get R name = Return (Some stored) ->
  steps (set R name v ex px nx xx)
  = [Codec (PickleDumps v); Forwarded (SuperSet name (RBytes stored) ex px nx xx)]
  /\ redis_encode (RBytes stored) = Return stored
  /\ get R name true
     = mkOp [Forwarded (SuperGet name); Codec (PickleLoads stored)] (Return v).
Proof.
  intros Hv Hd Hl Hg. unfold set, get.
  rewrite codec_bind_forward, forward_bind, Hg,
    (convert_set_type_other _ Hv), Hd, convert_get_type_pickle_first, Hl.
  repeat split.
Qed.

(** What set sends for a string, read back by get with the hint off, is
    the string: set hands the string over as it is, without any encoding
    event, and when the store holds its UTF-8 bytes get returns it after
    the text attempt alone. *)
Theorem set_get_roundtrip_text (name : pystr) (s : pystr) (stored : bytes)
    (ex px : option Z) (nx xx : bool) :
  redis_encode (RStr s) = Return stored ->
  redis_get R name = Return (Some stored) ->
  steps (set R name (VStr s) ex px nx xx)
  = [Forwarded (SuperSet name (RStr s) ex px nx xx)] /\
  get R name false
  = mkOp [Forwarded (SuperGet name); Codec (Utf8Decode stored)]
         (Return (VStr s)).
Proof.
  intros He Hg. unfold set, get.
  rewrite codec_bind_forward, forward_bind, Hg, convert_get_type_text_first.
  cbn in He. destruct (Utf8.encode s) as [b|] eqn:Hs; [|discriminate He].
  injection He as <-.
  rewrite (Utf8Facts.decode_encode _ _ Hs). repeat split.
Qed.

End Writes.

Lemma variadic_write_encodes_in_order_witness :
  sadd (P := MiniPickle.pickle) (fixed_rest None [] []) (text "s")
    [VStr (text "a"); VInt 42]
  = mkOp [Codec (PickleDumps (VInt 42));
          Forwarded (SuperSadd (text "s") [RStr (text "a"); RBytes pickled_42])]
         (Return 2%Z).
Proof.
  refine (proj1 (@variadic_write_encodes_in_order MiniPickle.pickle
                   (fixed_rest None [] []) (text "s")
                   [VStr (text "a"); VInt 42]
                   [RStr (text "a"); RBytes pickled_42] _)).
  repeat constructor.
Defined.

Lemma variadic_write_failure_witness :
  rpush (P := MiniPickle.pickle) (fixed_rest None [] []) (text "l")
    [VInt 42; VList []; VStr (text "z")]
  = mkOp [Codec (PickleDumps (VInt 42)); Codec (PickleDumps (VList []))]
         (Raise PicklingError).
Proof.
  refine (proj1 (proj2 (proj2 (proj2
            (@variadic_write_failure MiniPickle.pickle (fixed_rest None [] [])
               (text "l") [VInt 42] (VList []) [VStr (text "z")] PicklingError
               _ eq_refl))))).
  repeat constructor.
Defined.

Lemma single_write_failure_witness :
  set (P := MiniPickle.pickle) (fixed_rest None [] []) (text "k") (VList [])
    None None false false
  = mkOp [Codec (PickleDumps (VList []))] (Raise PicklingError).
Proof.
  exact (proj1 (@single_write_failure MiniPickle.pickle (fixed_rest None [] [])
                  (text "k") (VList []) None None false false PicklingError
                  eq_refl)).
Defined.

Lemma set_get_roundtrip_pickled_witness :
  get (P := MiniPickle.pickle) (fixed_rest (Some pickled_42) [] []) (text "k") true
  = mkOp [Forwarded (SuperGet (text "k")); Codec (PickleLoads pickled_42)]
         (Return (VInt 42)).
Proof.
  exact (proj2 (proj2
    (@set_get_roundtrip_pickled MiniPickle.pickle
       (fixed_rest (Some pickled_42) [] []) (text "k") (VInt 42) pickled_42
       None None false false eq_refl eq_refl eq_refl eq_refl))).
Defined.

Lemma set_get_roundtrip_text_witness :
  get (P := MiniPickle.pickle) (fixed_rest (Some (blit "Hello")) [] [])
    (text "k") false
  = mkOp [Forwarded (SuperGet (text "k")); Codec (Utf8Decode (blit "Hello"))]
         (Return (VStr (text "Hello"))).
Proof.
  exact (proj2
    (@set_get_roundtrip_text MiniPickle.pickle
       (fixed_rest (Some (blit "Hello")) [] []) (text "k") (text "Hello")
       (blit "Hello") None None false false eq_refl eq_refl)).
Defined.

(* ================================================================= *)
(** ** Field names: hkeys against hgetall *)

(** The two listings of a hash treat a field name that is no valid UTF-8
    differently, whatever else the hash holds.  hkeys decodes every name
    text first: it returns exactly the list of what the names decode to,
    the name in question as the deserialised object or as its raw bytes,
    and it returns whenever each name's decoding does.  hgetall never
    returns: it raises, and when the fields before that name decode, the
    exception is [UnicodeDecodeError]. *)
Theorem hkeys_lenient_hgetall_strict {P : Pickle} (R : Redis) (R' : RedisRest)
    (name : pystr) (pre : dict bytes bytes) (k v : bytes)
    (post : dict bytes bytes) (pickle_first : bool) :
  redis_hkeys R' name = Return (Some (keys_of (pre ++ (k, v) :: post))) ->
  redis_hgetall R name = Return (pre ++ (k, v) :: post) ->
  Utf8.decode k = None ->
  (forall vs,
      ended (hkeys R' name) = Return vs <->
      Forall2 (fun k' v' => outcome (decode_text_first k') = Return v')
        (keys_of (pre ++ (k, v) :: post)) vs) /\
  (forall o,
      outcome (decode_text_first k) = Return o ->
      loads k = Return o \/
      (o = VBytes k /\ exists e, loads k = Raise e /\ is_PickleError e = true)) /\
  (Forall (fun k' => returns (outcome (decode_text_first k')) = true)
     (keys_of (pre ++ (k, v) :: post)) ->
   exists vs,
     ended (hkeys R' name) = Return vs /\
     List.length vs = List.length (pre ++ (k, v) :: post)) /\
  returns (outcome (hgetall R name pickle_first)) = false /\
  (Forall (fun kv => exists kv', decoded_field pickle_first kv kv') pre ->
   outcome (hgetall R name pickle_first) = Raise UnicodeDecodeError).
Proof.
  intros Hk Hg Hd.
  assert (Hf : forall b, convert_get_type (Some b) false = decode_text_first b)
    by (intros b; apply convert_get_type_text_first).
  assert (Hiff : forall vs,
             ended (hkeys R' name) = Return vs <->
             Forall2 (fun k' v' => outcome (decode_text_first k') = Return v')
               (keys_of (pre ++ (k, v) :: post)) vs).
  { intros vs. unfold hkeys. rewrite forward_bind, Hk. cbn [or_empty ended codec].
    rewrite list_comp_returns_iff. split; intros H.
    - clear - H Hf. induction H; constructor; auto. now rewrite <- Hf.
    - clear - H Hf. induction H; constructor; auto. now rewrite Hf. }
  split; [exact Hiff|]. split; [|split; [|split]].
  - intros o Ho. unfold decode_text_first in Ho. rewrite Hd in Ho.
    cbn [outcome] in Ho. unfold after_loads in Ho.
    destruct (loads k) as [o'|e] eqn:Hl.
    + left. exact Ho.
    + destruct (is_PickleError e) eqn:He; [|discriminate Ho].
      injection Ho as <-. right. split; [reflexivity|]. exists e. auto.
  - intros Hall.
    assert (Hex : exists vs,
               Forall2 (fun k' v' => outcome (decode_text_first k') = Return v')
                 (keys_of (pre ++ (k, v) :: post)) vs).
    { clear - Hall. induction Hall as [|k' ks Hk' _ [vs IH]].
      - exists []. constructor.
      - destruct (outcome (decode_text_first k')) as [v'|e] eqn:Ho;
          [|discriminate Hk'].
        exists (v' :: vs). now constructor. }
    destruct Hex as [vs Hvs]. exists vs. split; [now apply Hiff|].
    apply Forall2_length in Hvs. unfold keys_of in Hvs.
    rewrite length_map in Hvs. now symmetry.
  - unfold hgetall, dict_comp. rewrite super_bind, Hg. cbn [outcome].
    destruct (outcome (dict_comp_from _ (pre ++ (k, v) :: post) []))
      as [m|e] eqn:Hm; [|reflexivity].
    exfalso. apply dict_comp_from_inv in Hm. destruct Hm as [kvs Hkvs].
    apply Forall2_app_inv_l in Hkvs.
    destruct Hkvs as (l1 & l2 & _ & H2 & _).
    inversion H2 as [|? kv' ? ? Hkv _]; subst.
    rewrite (field_bad_name pickle_first (k, v) Hd) in Hkv. discriminate Hkv.
  - intros Hpre. unfold hgetall, dict_comp. rewrite super_bind, Hg.
    rewrite (dict_comp_from_raises _ pre (k, v) post UnicodeDecodeError).
    + reflexivity.
    + clear - Hpre. induction Hpre as [|kv pre [kv' Hkv] _ IH]; constructor; auto.
      apply (field_outcome pickle_first) in Hkv. now rewrite Hkv.
    + now rewrite (field_bad_name pickle_first (k, v) Hd).
Qed.

Lemma hkeys_lenient_hgetall_strict_witness :
  ended (hkeys (P := MiniPickle.pickle)
           (fixed_rest None [] [blit "ok"; [xff]]) (text "h"))
  = Return [VStr (text "ok"); VBytes [xff]] /\
  outcome (hgetall (P := MiniPickle.pickle)
             (fixed_redis None hash_with_binary_name) (text "h") false)
  = Raise UnicodeDecodeError.
Proof.
  destruct (@hkeys_lenient_hgetall_strict MiniPickle.pickle
              (fixed_redis None hash_with_binary_name)
              (fixed_rest None [] [blit "ok"; [xff]])
              (text "h") [(blit "ok", blit "v")] [xff] (blit "w") [] false
              eq_refl eq_refl eq_refl) as (H1 & _ & _ & _ & H5).
  split.
  - apply H1. repeat constructor.
  - apply H5. constructor; [|constructor].
    exists (text "ok", VStr (text "v")). split; reflexivity.
Defined.

(* ================================================================= *)
(** ** The NumPy array codec: layout, errors, what is not checked *)

Module NpMore.
Import Np.

Ltac case_if H :=
  match type of H with
  | context [if ?c then _ else _] => destruct c
  end.

Lemma header_length (t d1 d2 d3 : N) : List.length (np_header t d1 d2 d3) = 16%nat.
Proof. reflexivity. Qed.

Lemma fits_u32_lt (n : N) : fits_u32 n = true <-> n < 4294967296.
Proof. unfold fits_u32. apply N.ltb_lt. Qed.

Lemma u32_be_of_be (a b c d : byte) :
  u32_be (u32_of_be a b c d) = [a; b; c; d] /\
  fits_u32 (u32_of_be a b c d) = true.
Proof.
  pose proof (to_N_lt_256 a). pose proof (to_N_lt_256 b).
  pose proof (to_N_lt_256 c). pose proof (to_N_lt_256 d).
  unfold u32_be, u32_of_be, fits_u32.
  set (n := to_N a * 16777216 + to_N b * 65536 + to_N c * 256 + to_N d).
  assert (E0 : n / 16777216 = to_N a) by (subst n; lia).
  assert (E1 : (n / 65536) mod 256 = to_N b) by (subst n; lia).
  assert (E2 : (n / 256) mod 256 = to_N c) by (subst n; lia).
  assert (E3 : n mod 256 = to_N d) by (subst n; lia).
  rewrite E0, E1, E2, E3, !byte_of_N_to_N. split; [reflexivity|].
  apply N.ltb_lt. subst n. lia.
Qed.

Lemma pack_returns_iff (a b c d : N) (packed : bytes) :
  struct_pack_IIII a b c d = Return packed <->
  (fits_u32 a = true /\ fits_u32 b = true /\ fits_u32 c = true /\
   fits_u32 d = true) /\ packed = np_header a b c d.
Proof.
  unfold struct_pack_IIII, np_header.
  destruct (fits_u32 a), (fits_u32 b), (fits_u32 c), (fits_u32 d); cbn [andb];
    split; intros H;
    try discriminate H;
    try (injection H as <-; now repeat split);
    try (destruct H as [[? [? [? ?]]] ->]; (reflexivity || discriminate)).
Qed.

Lemma frombuffer_payload (hdr payload : bytes) (dt : np_dtype) :
  List.length hdr = 16%nat ->
  frombuffer (hdr ++ payload) 16 dt =
  if dt_itemsize dt =? 0 then
    Raise (ValueError "itemsize cannot be zero in type")
  else if N.of_nat (List.length payload) mod dt_itemsize dt =? 0 then
    Return {| dtype := dt;
              shape := [N.of_nat (List.length payload) / dt_itemsize dt];
              data := payload |}
  else Raise (ValueError "buffer size must be a multiple of element size").
Proof.
  intros Hh. unfold frombuffer. rewrite length_app, Hh.
  replace (16 + List.length payload <? 16)%nat with false
    by (symmetry; apply Nat.ltb_ge; lia).
  replace (16 + List.length payload - 16)%nat with (List.length payload) by lia.
  rewrite <- Hh, skipn_app, skipn_all, Nat.sub_diag. reflexivity.
Qed.

Section Unserialize.
Variable typeDict : N -> option np_dtype.

(** How unserialize_np reads bytes that begin with a header. *)
Lemma unserialize_np_fields (t d1 d2 d3 : N) (payload : bytes) :
  fits_u32 t = true -> fits_u32 d1 = true ->
  fits_u32 d2 = true -> fits_u32 d3 = true ->
  unserialize_np typeDict (np_header t d1 d2 d3 ++ payload) =
  match typeDict t with
  | None => Raise KeyError
  | Some dt =>
      np_array <- frombuffer (np_header t d1 d2 d3 ++ payload) 16 dt ;;
      if negb (d3 =? 0) then reshape np_array [d1; d2; d3]
      else if negb (d2 =? 0) then reshape np_array [d1; d2]
      else Return np_array
  end.
Proof.
  intros Ht H1 H2 H3. unfold unserialize_np, np_header.
  rewrite (proj2 (NpFacts.unpack_pack _ _ _ _ payload Ht H1 H2 H3)).
  cbn [bind result_monad]. unfold typeDict_getitem.
  destruct (typeDict t); reflexivity.
Qed.

(** Bytes of length 16 or more begin with a header. *)
Lemma has_header (encoded : bytes) :
  (16 <= List.length encoded)%nat ->
  exists t d1 d2 d3 payload,
    encoded = np_header t d1 d2 d3 ++ payload /\
    fits_u32 t = true /\ fits_u32 d1 = true /\
    fits_u32 d2 = true /\ fits_u32 d3 = true.
Proof.
  intros H.
  do 16 (destruct encoded as [|? encoded]; [cbn in H; lia|]).
  exists (u32_of_be b b0 b1 b2), (u32_of_be b3 b4 b5 b6),
    (u32_of_be b7 b8 b9 b10), (u32_of_be b11 b12 b13 b14), encoded.
  unfold np_header.
  rewrite (proj1 (u32_be_of_be b b0 b1 b2)), (proj1 (u32_be_of_be b3 b4 b5 b6)),
    (proj1 (u32_be_of_be b7 b8 b9 b10)), (proj1 (u32_be_of_be b11 b12 b13 b14)).
  split; [reflexivity|].
  repeat split; apply u32_be_of_be.
Qed.

Lemma unpack_short (buf : bytes) :
  (List.length buf < 16)%nat -> struct_unpack_IIII buf = Raise StructError.
Proof.
  intros H.
  do 16 (destruct buf as [|? buf]; [reflexivity|]).
  cbn in H. lia.
Qed.

Lemma unserialize_np_too_short (encoded : bytes) :
  (List.length encoded < 16)%nat ->
  unserialize_np typeDict encoded = Raise StructError.
Proof.
  intros H. unfold unserialize_np.
  rewrite unpack_short; [reflexivity|].
  rewrite length_firstn. lia.
Qed.

(** unserialize_np raises [struct.error] exactly on input shorter than
    the 16 bytes of a header. *)
Theorem unserialize_np_short_input (encoded : bytes) :
  unserialize_np typeDict encoded = Raise StructError <->
  (List.length encoded < 16)%nat.
Proof.
  split.
  - intros H. destruct (Nat.lt_ge_cases (List.length encoded) 16) as [|Hge];
      [assumption|exfalso].
    destruct (has_header encoded Hge)
      as (t & d1 & d2 & d3 & payload & -> & Ht & H1 & H2 & H3).
    rewrite (unserialize_np_fields t d1 d2 d3 payload Ht H1 H2 H3) in H.
    destruct (typeDict t) as [dt|]; [|discriminate H].
    rewrite (frombuffer_payload _ payload dt (header_length t d1 d2 d3)) in H.
    destruct (dt_itemsize dt =? 0); [discriminate H|].
    destruct (_ mod _ =? 0); [|discriminate H].
    cbn [bind result_monad] in H. unfold reshape in H.
    repeat case_if H; discriminate H.
  - apply unserialize_np_too_short.
Qed.

(** A header whose type number is not in [np.typeDict] is refused with
    [KeyError]; a payload whose length is no multiple of the element
    size is refused with [ValueError], whatever the dimensions. *)
Theorem unserialize_np_bad_input (t d1 d2 d3 : N) (payload : bytes) :
  fits_u32 t = true -> fits_u32 d1 = true ->
  fits_u32 d2 = true -> fits_u32 d3 = true ->
  (typeDict t = None ->
   unserialize_np typeDict (np_header t d1 d2 d3 ++ payload) = Raise KeyError) /\
  (forall dt,
      typeDict t = Some dt ->
      dt_itemsize dt <> 0 ->
      N.of_nat (List.length payload) mod dt_itemsize dt <> 0 ->
      unserialize_np typeDict (np_header t d1 d2 d3 ++ payload)
      = Raise (ValueError "buffer size must be a multiple of element size")).
Proof.
  intros Ht H1 H2 H3.
  rewrite (unserialize_np_fields t d1 d2 d3 payload Ht H1 H2 H3). split.
  - intros Hn. now rewrite Hn.
  - intros dt Hd Hi Hm. rewrite Hd.
    rewrite (frombuffer_payload _ payload dt (header_length t d1 d2 d3)).
    replace (dt_itemsize dt =? 0) with false by (symmetry; now apply N.eqb_neq).
    replace (_ mod _ =? 0) with false by (symmetry; now apply N.eqb_neq).
    reflexivity.
Qed.



End Unserialize.

(** serialize_np returns exactly for arrays of one to three dimensions
    whose type number and dimensions fit 32 bits, and what it returns is
    the header followed by the element bytes as they are: 16 bytes more
    than the array holds. *)
Theorem serialize_np_returns_iff (a : ndarray) (encoded : bytes) :
  serialize_np a = Return encoded <->
  (1 <= List.length (shape a) <= 3)%nat /\
  fits_u32 (dt_num (dtype a)) = true /\
  Forall (fun n => fits_u32 n = true) (shape a) /\
  (let '(d1, d2, d3) := header_dims (shape a) in
   encoded = np_header (dt_num (dtype a)) d1 d2 d3 ++ data a) /\
  List.length encoded = (16 + List.length (data a))%nat.
Proof.
  unfold serialize_np, tobytes.
  destruct (shape a) as [|s0 [|s1 [|s2 [|s3 shp]]]];
    cbn [bind result_monad header_dims List.length].
  - split; [discriminate|]. intros [[H _] _]. lia.
  - destruct (struct_pack_IIII (dt_num (dtype a)) s0 0 0) as [p|e] eqn:Hp; split.
    + intros H. injection H as <-.
      apply pack_returns_iff in Hp. destruct Hp as [[Ht [H0 _]] ->].
      repeat split; auto; try lia.
    + intros (_ & Ht & Hf & -> & _).
      apply Forall_cons_iff in Hf. destruct Hf as [H0 _].
      assert (Hq : struct_pack_IIII (dt_num (dtype a)) s0 0 0
                   = Return (np_header (dt_num (dtype a)) s0 0 0))
        by (apply pack_returns_iff; repeat split; auto).
      rewrite Hq in Hp. now injection Hp as <-.
    + discriminate.
    + intros (_ & Ht & Hf & _).
      apply Forall_cons_iff in Hf. destruct Hf as [H0 _].
      assert (Hq : struct_pack_IIII (dt_num (dtype a)) s0 0 0
                   = Return (np_header (dt_num (dtype a)) s0 0 0))
        by (apply pack_returns_iff; repeat split; auto).
      rewrite Hq in Hp. discriminate Hp.
  - destruct (struct_pack_IIII (dt_num (dtype a)) s0 s1 0) as [p|e] eqn:Hp; split.
    + intros H. injection H as <-.
      apply pack_returns_iff in Hp. destruct Hp as [[Ht [H0 [H1 _]]] ->].
      repeat split; auto; try lia.
    + intros (_ & Ht & Hf & -> & _).
      apply Forall_cons_iff in Hf. destruct Hf as [H0 Hf].
      apply Forall_cons_iff in Hf. destruct Hf as [H1 _].
      assert (Hq : struct_pack_IIII (dt_num (dtype a)) s0 s1 0
                   = Return (np_header (dt_num (dtype a)) s0 s1 0))
        by (apply pack_returns_iff; repeat split; auto).
      rewrite Hq in Hp. now injection Hp as <-.
    + discriminate.
    + intros (_ & Ht & Hf & _).
      apply Forall_cons_iff in Hf. destruct Hf as [H0 Hf].
      apply Forall_cons_iff in Hf. destruct Hf as [H1 _].
      assert (Hq : struct_pack_IIII (dt_num (dtype a)) s0 s1 0
                   = Return (np_header (dt_num (dtype a)) s0 s1 0))
        by (apply pack_returns_iff; repeat split; auto).
      rewrite Hq in Hp. discriminate Hp.
  - destruct (struct_pack_IIII (dt_num (dtype a)) s0 s1 s2) as [p|e] eqn:Hp; split.
    + intros H. injection H as <-.
      apply pack_returns_iff in Hp. destruct Hp as [[Ht [H0 [H1 H2]]] ->].
      repeat split; auto; try lia.
    + intros (_ & Ht & Hf & -> & _).
      apply Forall_cons_iff in Hf. destruct Hf as [H0 Hf].
      apply Forall_cons_iff in Hf. destruct Hf as [H1 Hf].
      apply Forall_cons_iff in Hf. destruct Hf as [H2 _].
      assert (Hq : struct_pack_IIII (dt_num (dtype a)) s0 s1 s2
                   = Return (np_header (dt_num (dtype a)) s0 s1 s2))
        by (apply pack_returns_iff; repeat split; auto).
      rewrite Hq in Hp. now injection Hp as <-.
    + discriminate.
    + intros (_ & Ht & Hf & _).
      apply Forall_cons_iff in Hf. destruct Hf as [H0 Hf].
      apply Forall_cons_iff in Hf. destruct Hf as [H1 Hf].
      apply Forall_cons_iff in Hf. destruct Hf as [H2 _].
      assert (Hq : struct_pack_IIII (dt_num (dtype a)) s0 s1 s2
                   = Return (np_header (dt_num (dtype a)) s0 s1 s2))
        by (apply pack_returns_iff; repeat split; auto).
      rewrite Hq in Hp. discriminate Hp.
  - split; [discriminate|]. intros [[_ H] _]. cbn in H. lia.
Qed.

(** Serialising what unserialize_np returned gives the input back, for
    results of two or three dimensions, when [np.typeDict] holds each type
    under its own type number. *)
Theorem reserialize_np (typeDict : N -> option np_dtype) (encoded : bytes)
    (a : ndarray) :
  (forall t dt, typeDict t = Some dt -> dt_num dt = t) ->
  unserialize_np typeDict encoded = Return a ->
  (2 <= List.length (shape a))%nat ->
  serialize_np a = Return encoded.
Proof.
  intros Htd Hu Hdim.
  destruct (Nat.lt_ge_cases (List.length encoded) 16) as [Hlt|Hge].
  { apply (unserialize_np_too_short typeDict) in Hlt. congruence. }
  destruct (has_header encoded Hge)
    as (t & d1 & d2 & d3 & payload & -> & Ht & H1 & H2 & H3).
  rewrite (unserialize_np_fields typeDict t d1 d2 d3 payload Ht H1 H2 H3) in Hu.
  destruct (typeDict t) as [dt|] eqn:Hdt; [|discriminate Hu].
  rewrite (frombuffer_payload _ payload dt (header_length t d1 d2 d3)) in Hu.
  case_if Hu; [discriminate Hu|].
  case_if Hu; [|discriminate Hu].
  cbn [bind result_monad] in Hu. unfold reshape in Hu. cbn [shape dtype data] in Hu.
  pose proof (Htd t dt Hdt) as Hnum.
  destruct (d3 =? 0) eqn:E3; cbn [negb] in Hu.
  - destruct (d2 =? 0) eqn:E2; cbn [negb] in Hu.
    + injection Hu as <-. cbn in Hdim. lia.
    + repeat case_if Hu; try discriminate Hu. injection Hu as <-.
      apply N.eqb_eq in E3. subst d3.
      rewrite <- Hnum in Ht |- *.
      apply (NpFacts.serialize_np_header typeDict
               {| dtype := dt; shape := [d1; d2]; data := payload |} d1 d2 0);
        cbn; auto; lia.
  - repeat case_if Hu; try discriminate Hu. injection Hu as <-.
    rewrite <- Hnum in Ht |- *.
    apply (NpFacts.serialize_np_header typeDict
             {| dtype := dt; shape := [d1; d2; d3]; data := payload |} d1 d2 d3);
      cbn; auto; lia.
Qed.

End NpMore.

Lemma sample_typeDict_num (t : N) (dt : Np.np_dtype) :
  sample_typeDict t = Some dt -> Np.dt_num dt = t.
Proof.
  unfold sample_typeDict. intros H.
  destruct t as [|p]; [injection H as <-; reflexivity|].
  repeat (destruct p as [p|p|];
          try discriminate H;
          try (injection H as <-; reflexivity)).
Qed.

Lemma unserialize_np_bad_input_witness :
  Np.unserialize_np sample_typeDict (np_header 12 3 0 0 ++ [x01; x02; x03])
  = Raise (ValueError "buffer size must be a multiple of element size").
Proof.
  refine (proj2 (@NpMore.unserialize_np_bad_input sample_typeDict 12 3 0 0
                   [x01; x02; x03] eq_refl eq_refl eq_refl eq_refl)
            float64 eq_refl _ _); cbn; discriminate.
Defined.



Lemma reserialize_np_witness :
  Np.serialize_np array_2x3 = Return (np_header 2 2 3 0 ++ Np.data array_2x3).
Proof.
  refine (@NpMore.reserialize_np sample_typeDict
            (np_header 2 2 3 0 ++ Np.data array_2x3) array_2x3
            sample_typeDict_num eq_refl _).
  cbn. lia.
Defined.
